(** * Pod synchronisation into the graph store (pkg/controller/dgraph/models/pod.go)

    A shallow embedding of the pod handler: [newPod], [StorePod],
    [StorePodsInteraction], [retrievePodsFromPodsXIDs],
    [retrievePodsWithCountAsEdgeWeightFromPodsXIDs], [setPodOwners],
    [getPodVolumes] and [populatePodLabels].

    The handler talks to the graph store and to the handlers of the other
    resource kinds.  Those live outside this file; they are taken as an
    interface over an abstract world [W].  Every call that crosses that
    interface is recorded, with its arguments and its result, in a trace of
    events, so that statements such as "no mutation is issued" or "the
    entity sent to the store is ..." can be made about the calls
    themselves. *)

From Stdlib Require Import PrimFloat.
From stdpp Require Import gmap strings list fin_maps infinite.

Open Scope string_scope.
Open Scope list_scope.

(** Go's [float64]; [+] on it is IEEE 754 binary64 addition. *)
Definition float64 : Set := float.

(** Go's [error] values are represented by their message; [nil] is [None]. *)
Definition error : Set := string.

(** ** Package dgraph: identities and mutation results *)
Module dgraph.

(** [dgraph.ID], embedded in every entity: the internal id assigned by the
      store and the caller-chosen external id. *)
Record ID : Set := mkID { UID : string; Xid : string }.

Definition noID : ID := {| UID := ""; Xid := "" |}.

Inductive MutateType : Set := CREATE | UPDATE.

(** [api.Assigned]: the ids the store assigned to blank nodes. *)
Record Assigned : Type := mkAssigned { Uids : gmap string string }.

(** [m[key]] on a Go map: the zero value when the key is missing. *)
Definition at_key (m : gmap string string) (key : string) : string :=
    default "" (m !! key).

End dgraph.

(** ** The observed cluster object (k8s.io/api/core/v1), as far as it is read *)
Module time.
(** An instant, counted from January 1, year 1, 00:00:00 UTC, which is
      the zero [time.Time]. *)
Record Time : Set := mkTime { sec : Z; nsec : Z }.
Definition IsZero (t : Time) : bool := (sec t =? 0)%Z && (nsec t =? 0)%Z.
End time.

Module api_v1.

Record OwnerReference : Set := { Kind : string; Name : string }.

Record PersistentVolumeClaimVolumeSource : Set := { ClaimName : string }.

Record Volume : Set :=
    { PersistentVolumeClaim : option PersistentVolumeClaimVolumeSource }.

Record PodSpec : Set := { NodeName : string; Volumes : list Volume }.

(** The fields of the object that this file reads.  [Labels] is a Go map;
    it is given as the list of its entries in the order in which [range]
    visits them. *)
Record Pod : Set :=
    { Pod_Name : string;
      Namespace : string;
      CreationTimestamp : time.Time;
      DeletionTimestamp : option time.Time;
      OwnerReferences : list OwnerReference;
      Labels : list (string * string);
      Spec : PodSpec }.

(** [metav1.Time.IsZero] on the pointer returned by
      [GetDeletionTimestamp]: a nil pointer is zero. *)
Definition IsZero (t : option time.Time) : bool :=
    match t with
    | None => true
    | Some t => time.IsZero t
    end.

End api_v1.

(** ** Package models: the entities related to a pod

    The declarations of these structs are in sibling files.  This file only
    ever builds them from a [dgraph.ID], and reads the storage capacity of a
    volume claim; they are represented by exactly those parts. *)
Record Container : Set := { Container_ID : dgraph.ID }.
Record Node : Set := { Node_ID : dgraph.ID }.
Record Namespace : Set := { Namespace_ID : dgraph.ID }.
Record Deployment : Set := { Deployment_ID : dgraph.ID }.
Record Replicaset : Set := { Replicaset_ID : dgraph.ID }.
Record Statefulset : Set := { Statefulset_ID : dgraph.ID }.
Record Daemonset : Set := { Daemonset_ID : dgraph.ID }.
Record Job : Set := { Job_ID : dgraph.ID }.
Record Service : Set := { Service_ID : dgraph.ID }.
Record Label : Set := { Label_ID : dgraph.ID }.
Record PersistentVolumeClaim : Set :=
  { PersistentVolumeClaim_ID : dgraph.ID; StorageCapacity : float64 }.

(** [Metrics] *)
Record Metrics : Set :=
  { Metrics_CPURequest : float64;
    Metrics_CPULimit : float64;
    Metrics_MemoryRequest : float64;
    Metrics_MemoryLimit : float64 }.

(** Dgraph model constant. *)
Definition IsPod : string := "isPod".

(** ** [Pod], the pod schema in dgraph

    Pointers are options, slices are lists (a nil slice is the empty
    list). *)
Module Pod.

#[local] Unset Elimination Schemes.

Inductive t : Set := mk
    { ID : dgraph.ID;
      IsPod : bool;
      Name : string;
      StartTime : string;
      EndTime : string;
      Containers : list Container;
      Pods : list t;
      Count : float64;
      Node : option Node;
      Namespace : option Namespace;
      Deployment : option Deployment;
      Replicaset : option Replicaset;
      Statefulset : option Statefulset;
      Daemonset : option Daemonset;
      Job : option Job;
      Pvcs : list PersistentVolumeClaim;
      CPURequest : float64;
      CPULimit : float64;
      MemoryRequest : float64;
      MemoryLimit : float64;
      StorageRequest : float64;
      Type_ : string;
      Cid : list Service;
      Labels : list Label }.

#[local] Set Elimination Schemes.

(** [Pod{}]: every field at its zero value. *)
Definition zero : t :=
    mk dgraph.noID false "" "" "" [] [] 0%float None None None None None None
       None [] 0%float 0%float 0%float 0%float 0%float "" [] [].

(** Field assignments [pod.F = v]. *)
Definition set_ID v (p : t) : t :=
    let 'mk _ b c d e f g h i j k l m n o q r s u w x y z a' := p in
    mk v b c d e f g h i j k l m n o q r s u w x y z a'.
Definition set_IsPod v (p : t) : t :=
    let 'mk a _ c d e f g h i j k l m n o q r s u w x y z a' := p in
    mk a v c d e f g h i j k l m n o q r s u w x y z a'.
Definition set_Name v (p : t) : t :=
    let 'mk a b _ d e f g h i j k l m n o q r s u w x y z a' := p in
    mk a b v d e f g h i j k l m n o q r s u w x y z a'.
Definition set_StartTime v (p : t) : t :=
    let 'mk a b c _ e f g h i j k l m n o q r s u w x y z a' := p in
    mk a b c v e f g h i j k l m n o q r s u w x y z a'.
Definition set_EndTime v (p : t) : t :=
    let 'mk a b c d _ f g h i j k l m n o q r s u w x y z a' := p in
    mk a b c d v f g h i j k l m n o q r s u w x y z a'.
Definition set_Containers v (p : t) : t :=
    let 'mk a b c d e _ g h i j k l m n o q r s u w x y z a' := p in
    mk a b c d e v g h i j k l m n o q r s u w x y z a'.
Definition set_Pods v (p : t) : t :=
    let 'mk a b c d e f _ h i j k l m n o q r s u w x y z a' := p in
    mk a b c d e f v h i j k l m n o q r s u w x y z a'.
Definition set_Count v (p : t) : t :=
    let 'mk a b c d e f g _ i j k l m n o q r s u w x y z a' := p in
    mk a b c d e f g v i j k l m n o q r s u w x y z a'.
Definition set_Node v (p : t) : t :=
    let 'mk a b c d e f g h _ j k l m n o q r s u w x y z a' := p in
    mk a b c d e f g h v j k l m n o q r s u w x y z a'.
Definition set_Namespace v (p : t) : t :=
    let 'mk a b c d e f g h i _ k l m n o q r s u w x y z a' := p in
    mk a b c d e f g h i v k l m n o q r s u w x y z a'.
Definition set_Deployment v (p : t) : t :=
    let 'mk a b c d e f g h i j _ l m n o q r s u w x y z a' := p in
    mk a b c d e f g h i j v l m n o q r s u w x y z a'.
Definition set_Replicaset v (p : t) : t :=
    let 'mk a b c d e f g h i j k _ m n o q r s u w x y z a' := p in
    mk a b c d e f g h i j k v m n o q r s u w x y z a'.
Definition set_Statefulset v (p : t) : t :=
    let 'mk a b c d e f g h i j k l _ n o q r s u w x y z a' := p in
    mk a b c d e f g h i j k l v n o q r s u w x y z a'.
Definition set_Daemonset v (p : t) : t :=
    let 'mk a b c d e f g h i j k l m _ o q r s u w x y z a' := p in
    mk a b c d e f g h i j k l m v o q r s u w x y z a'.
Definition set_Job v (p : t) : t :=
    let 'mk a b c d e f g h i j k l m n _ q r s u w x y z a' := p in
    mk a b c d e f g h i j k l m n v q r s u w x y z a'.
Definition set_Pvcs v (p : t) : t :=
    let 'mk a b c d e f g h i j k l m n o _ r s u w x y z a' := p in
    mk a b c d e f g h i j k l m n o v r s u w x y z a'.
Definition set_CPURequest v (p : t) : t :=
    let 'mk a b c d e f g h i j k l m n o q _ s u w x y z a' := p in
    mk a b c d e f g h i j k l m n o q v s u w x y z a'.
Definition set_CPULimit v (p : t) : t :=
    let 'mk a b c d e f g h i j k l m n o q r _ u w x y z a' := p in
    mk a b c d e f g h i j k l m n o q r v u w x y z a'.
Definition set_MemoryRequest v (p : t) : t :=
    let 'mk a b c d e f g h i j k l m n o q r s _ w x y z a' := p in
    mk a b c d e f g h i j k l m n o q r s v w x y z a'.
Definition set_MemoryLimit v (p : t) : t :=
    let 'mk a b c d e f g h i j k l m n o q r s u _ x y z a' := p in
    mk a b c d e f g h i j k l m n o q r s u v x y z a'.
Definition set_StorageRequest v (p : t) : t :=
    let 'mk a b c d e f g h i j k l m n o q r s u w _ y z a' := p in
    mk a b c d e f g h i j k l m n o q r s u w v y z a'.
Definition set_Type v (p : t) : t :=
    let 'mk a b c d e f g h i j k l m n o q r s u w x _ z a' := p in
    mk a b c d e f g h i j k l m n o q r s u w x v z a'.
Definition set_Labels v (p : t) : t :=
    let 'mk a b c d e f g h i j k l m n o q r s u w x y z _ := p in
    mk a b c d e f g h i j k l m n o q r s u w x y z v.

End Pod.

(** [p <| set := v |>] reads as the composite-literal field [F: v], or as
    the assignment [p.F = v]. *)
Notation "p <| s := v |>" := (s v p)
  (at level 1, left associativity, s at level 9, v at level 200,
   only parsing).

(** ** The interface to the rest of the system *)

(** The kinds of related entity that have a create-or-get helper. *)
Inductive RelKind : Set :=
| KNamespace | KDeployment | KReplicaset | KStatefulset | KJob | KDaemonset
| KPersistentVolumeClaim.

Global Instance RelKind_eq_dec : EqDecision RelKind.
Proof. solve_decision. Defined.

Inductive Level : Set := Debug | Info | Error.

(** One event per call that leaves this file, carrying the arguments and
    the value returned. *)
Inductive Event : Type :=
| EvGetUID (xid predicate uid : string)
| EvMutateNode (p : Pod.t) (m : dgraph.MutateType)
               (r : dgraph.Assigned + error)
| EvCreateOrGetNode (xid uid : string) (err : option error)
| EvCreateOrGet (k : RelKind) (xid uid : string)
| EvGetPVC (uid : string) (r : PersistentVolumeClaim + error)
| EvStoreContainers (k8sPod : api_v1.Pod) (podUID namespaceUID : string)
                    (r : list Container * Metrics)
| EvDeleteContainers (containers : list Container) (t : time.Time)
| EvGetLabel (key value : string) (l : Label)
| EvLog (lvl : Level) (msg : string).

(** The graph store: [dgraph.GetUID] and [dgraph.MutateNode].  A lookup
    reads the store and does not change it.  A mutation returns the
    assigned ids or an error, never both and never neither. *)
Class GraphStore (W : Type) : Type :=
  { dgraph_GetUID : string → string → W → string;
    dgraph_MutateNode :
      Pod.t → dgraph.MutateType → W → (dgraph.Assigned + error) * W }.

(** The functions of package models that this file calls and that are
    defined in its sibling files, each as a function of the world, and the
    two formatting functions of the Go library that the code uses
    ([time.Time.Format] with the layout RFC3339, and [%v] on the label
    map).  The seven [CreateOrGet...ByID] that return just an id are one
    function indexed by the kind. *)
Class Collaborators (W : Type) : Type :=
  { collab_createOrGetNodeByID : string → W → (string * option error) * W;
    collab_CreateOrGetByID : RelKind → string → W → string * W;
    collab_getPVCFromUID : string → W → (PersistentVolumeClaim + error) * W;
    collab_StoreAndRetrieveContainersAndMetrics :
      api_v1.Pod → string → string → W → (list Container * Metrics) * W;
    collab_deleteContainersInTerminatedPod :
      list Container → time.Time → W → W;
    collab_GetLabel : string → string → W → Label * W;
    Format_RFC3339 : time.Time → string;
    Sprint_labels : list (string * string) → string }.

(** ** The handler *)
Section Models.

Context {W : Type}.

(** A computation reads and changes the world, reports the events of the
    calls it made, or panics ([None]), as Go does on an index out of
    range. *)
Definition M (A : Type) : Type := W → option (A * W * list Event).

Definition ret {A} (a : A) : M A := λ w, Some (a, w, []).

Definition bind {A B} (m : M A) (f : A → M B) : M B := λ w,
  match m w with
  | None => None
  | Some (a, w1, t1) =>
      match f a w1 with
      | None => None
      | Some (b, w2, t2) => Some (b, w2, t1 ++ t2)
      end
  end.

Definition panic {A} : M A := λ _, None.

(** A call that may change the world. *)
Definition call {A} (f : W → A * W) (ev : A → Event) : M A := λ w,
  let '(a, w') := f w in Some (a, w', [ev a]).

(** A call that only reads it. *)
Definition query {A} (f : W → A) (ev : A → Event) : M A := λ w,
  Some (f w, w, [ev (f w)]).

Definition emit (e : Event) : M unit := λ w, Some (tt, w, [e]).

End Models.

Arguments M W A : clear implicits.

Notation "x <- m ;; f" := (bind m (λ x, f))
  (at level 20, m at level 99, f at level 200, only parsing).
Notation "' p <- m ;; f" := (bind m (λ x, let 'p := x in f))
  (at level 20, p pattern, m at level 99, f at level 200, only parsing).

Section Handler.

Context {W : Type} `{!GraphStore W, !Collaborators W}.

#[local] Abbreviation M := (M W).

(** *** The calls across the interface, each leaving its event *)

Definition GetUID (xid predicate : string) : M string :=
  query (dgraph_GetUID xid predicate) (EvGetUID xid predicate).

Definition MutateNode (p : Pod.t) (m : dgraph.MutateType)
  : M (dgraph.Assigned + error) :=
  call (dgraph_MutateNode p m) (EvMutateNode p m).

Definition createOrGetNodeByID (xid : string) : M (string * option error) :=
  call (collab_createOrGetNodeByID xid) (λ r, EvCreateOrGetNode xid r.1 r.2).

Definition CreateOrGetByID (k : RelKind) (xid : string) : M string :=
  call (collab_CreateOrGetByID k xid) (EvCreateOrGet k xid).

Definition CreateOrGetNamespaceByID := CreateOrGetByID KNamespace.
Definition CreateOrGetDeploymentByID := CreateOrGetByID KDeployment.
Definition CreateOrGetReplicasetByID := CreateOrGetByID KReplicaset.
Definition CreateOrGetStatefulsetByID := CreateOrGetByID KStatefulset.
Definition CreateOrGetJobByID := CreateOrGetByID KJob.
Definition CreateOrGetDaemonsetByID := CreateOrGetByID KDaemonset.
Definition CreateOrGetPersistentVolumeClaimByID :=
  CreateOrGetByID KPersistentVolumeClaim.

Definition getPVCFromUID (uid : string)
  : M (PersistentVolumeClaim + error) :=
  call (collab_getPVCFromUID uid) (EvGetPVC uid).

Definition StoreAndRetrieveContainersAndMetrics
    (k8sPod : api_v1.Pod) (podUID namespaceUID : string)
  : M (list Container * Metrics) :=
  call (collab_StoreAndRetrieveContainersAndMetrics k8sPod podUID namespaceUID)
       (EvStoreContainers k8sPod podUID namespaceUID).

Definition deleteContainersInTerminatedPod
    (containers : list Container) (t : time.Time) : M unit :=
  call (λ w, (tt, collab_deleteContainersInTerminatedPod containers t w))
       (λ _, EvDeleteContainers containers t).

Definition GetLabel (key value : string) : M Label :=
  call (collab_GetLabel key value) (EvGetLabel key value).

Definition log (lvl : Level) (msg : string) : M unit := emit (EvLog lvl msg).

(** [s == ""] *)
Definition is_empty (s : string) : bool := String.eqb s "".

(** The external id [namespace + ":" + name]. *)
Definition xid_of (namespace name : string) : string :=
  namespace +:+ ":" +:+ name.

(** *** [getPodVolumes] *)

(** The loop [for j := 0; j < len(k8sPod.Spec.Volumes); j++], on the
    volumes still to visit, with the two accumulators. *)
Fixpoint getPodVolumes_loop (namespace : string) (vols : list api_v1.Volume)
    (podVolumes : list PersistentVolumeClaim) (storage : float64)
  : M (list PersistentVolumeClaim * float64) :=
  match vols with
  | [] => ret (podVolumes, storage)
  | vol :: vols =>
      match api_v1.PersistentVolumeClaim vol with
      | Some claim =>
          let pvcXID := xid_of namespace (api_v1.ClaimName claim) in
          pvcUID <- CreateOrGetPersistentVolumeClaimByID pvcXID ;;
          if negb (is_empty pvcUID) then
            let podVolumes :=
              podVolumes ++
              [ {| PersistentVolumeClaim_ID := dgraph.mkID pvcUID pvcXID;
                   StorageCapacity := 0%float |} ] in
            r <- getPVCFromUID pvcUID ;;
            match r with
            | inl pvc =>
                getPodVolumes_loop namespace vols podVolumes
                  (storage + StorageCapacity pvc)%float
            | inr err =>
                _ <- log Error ("error while getting pvc from uid: (" +:+ pvcUID
                                +:+ "), error: (" +:+ err +:+ ")") ;;
                getPodVolumes_loop namespace vols podVolumes storage
            end
          else getPodVolumes_loop namespace vols podVolumes storage
      | None => getPodVolumes_loop namespace vols podVolumes storage
      end
  end.

Definition getPodVolumes (k8sPod : api_v1.Pod)
  : M (list PersistentVolumeClaim * float64) :=
  getPodVolumes_loop (api_v1.Namespace k8sPod)
    (api_v1.Volumes (api_v1.Spec k8sPod)) [] 0%float.

(** *** [setPodOwners] *)

(** The body of [for _, owner := range owners]. *)
Definition setPodOwners_body (namespace : string) (pod : Pod.t)
    (owner : api_v1.OwnerReference) : M Pod.t :=
  if String.eqb (api_v1.Kind owner) "Deployment" then
    let deploymentXID := xid_of namespace (api_v1.Name owner) in
    deploymentUID <- CreateOrGetDeploymentByID deploymentXID ;;
    if negb (is_empty deploymentUID) then
      ret (pod <| Pod.set_Deployment :=
             Some {| Deployment_ID := dgraph.mkID deploymentUID deploymentXID |} |>)
    else ret pod
  else if String.eqb (api_v1.Kind owner) "ReplicaSet" then
    let replicasetXID := xid_of namespace (api_v1.Name owner) in
    replicasetUID <- CreateOrGetReplicasetByID replicasetXID ;;
    if negb (is_empty replicasetUID) then
      ret (pod <| Pod.set_Replicaset :=
             Some {| Replicaset_ID := dgraph.mkID replicasetUID replicasetXID |} |>)
    else ret pod
  else if String.eqb (api_v1.Kind owner) "StatefulSet" then
    let statefulsetXID := xid_of namespace (api_v1.Name owner) in
    statefulsetUID <- CreateOrGetStatefulsetByID statefulsetXID ;;
    if negb (is_empty statefulsetUID) then
      ret (pod <| Pod.set_Statefulset :=
             Some {| Statefulset_ID := dgraph.mkID statefulsetUID statefulsetXID |} |>)
    else ret pod
  else if String.eqb (api_v1.Kind owner) "Job" then
    let jobXID := xid_of namespace (api_v1.Name owner) in
    jobUID <- CreateOrGetJobByID jobXID ;;
    if negb (is_empty jobUID) then
      ret (pod <| Pod.set_Job :=
             Some {| Job_ID := dgraph.mkID jobUID jobXID |} |>)
    else ret pod
  else if String.eqb (api_v1.Kind owner) "DaemonSet" then
    let daemonsetXID := xid_of namespace (api_v1.Name owner) in
    daemonsetUID <- CreateOrGetDaemonsetByID daemonsetXID ;;
    if negb (is_empty daemonsetUID) then
      ret (pod <| Pod.set_Daemonset :=
             Some {| Daemonset_ID := dgraph.mkID daemonsetUID daemonsetXID |} |>)
    else ret pod
  else
    _ <- log Error ("Unknown owner type " +:+ api_v1.Kind owner
                    +:+ " for pod.") ;;
    ret pod.

Fixpoint setPodOwners_loop (namespace : string) (pod : Pod.t)
    (owners : list api_v1.OwnerReference) : M Pod.t :=
  match owners with
  | [] => ret pod
  | owner :: owners =>
      pod <- setPodOwners_body namespace pod owner ;;
      setPodOwners_loop namespace pod owners
  end.

(** The pod is passed by pointer and changed in place; here the changed
    pod is returned.  A nil owner list is the empty list. *)
Definition setPodOwners (pod : Pod.t) (k8sPod : api_v1.Pod) : M Pod.t :=
  setPodOwners_loop (api_v1.Namespace k8sPod) pod
    (api_v1.OwnerReferences k8sPod).

(** *** [populatePodLabels] *)

Fixpoint populatePodLabels_loop (podLabels : list (string * string))
    (labels : list Label) : M (list Label) :=
  match podLabels with
  | [] => ret labels
  | (key, value) :: podLabels =>
      l <- GetLabel key value ;;
      populatePodLabels_loop podLabels (labels ++ [l])
  end.

Definition populatePodLabels (pod : Pod.t)
    (podLabels : list (string * string)) : M Pod.t :=
  _ <- log Debug ("k8s pod: (" +:+ Pod.Name pod +:+ "), labels: ("
                  +:+ Sprint_labels podLabels +:+ ")") ;;
  labels <- populatePodLabels_loop podLabels [] ;;
  ret (pod <| Pod.set_Labels := labels |>).

(** *** [newPod] *)

Definition newPod (k8sPod : api_v1.Pod) : M (dgraph.Assigned + error) :=
  let pod :=
    Pod.zero
      <| Pod.set_Name := "pod-" +:+ api_v1.Pod_Name k8sPod |>
      <| Pod.set_IsPod := true |>
      <| Pod.set_Type := "pod" |>
      <| Pod.set_ID :=
           dgraph.mkID "" (xid_of (api_v1.Namespace k8sPod)
                                  (api_v1.Pod_Name k8sPod)) |>
      <| Pod.set_StartTime :=
           Format_RFC3339 (api_v1.CreationTimestamp k8sPod) |> in
  '(nodeUID, err) <- createOrGetNodeByID (api_v1.NodeName (api_v1.Spec k8sPod)) ;;
  let pod :=
    match err with
    | None =>
        pod <| Pod.set_Node :=
          Some {| Node_ID :=
                    dgraph.mkID nodeUID (api_v1.NodeName (api_v1.Spec k8sPod)) |} |>
    | Some _ => pod
    end in
  namespaceUID <- CreateOrGetNamespaceByID (api_v1.Namespace k8sPod) ;;
  let pod :=
    if negb (is_empty namespaceUID) then
      pod <| Pod.set_Namespace :=
        Some {| Namespace_ID :=
                  dgraph.mkID namespaceUID (api_v1.Namespace k8sPod) |} |>
    else pod in
  '(pvcs, storage) <- getPodVolumes k8sPod ;;
  let pod := pod <| Pod.set_Pvcs := pvcs |>
                 <| Pod.set_StorageRequest := storage |> in
  pod <- setPodOwners pod k8sPod ;;
  MutateNode pod dgraph.CREATE.

(** *** [StorePod] *)

(** The entity of the terminate phase. *)
Definition terminatedPod (xid uid : string) (t : time.Time) : Pod.t :=
  Pod.zero <| Pod.set_ID := dgraph.mkID uid xid |>
           <| Pod.set_EndTime := Format_RFC3339 t |>.

(** The entity of the update phase, before the labels are filled in. *)
Definition updatedPod (xid uid : string) (containers : list Container)
    (metrics : Metrics) : Pod.t :=
  Pod.zero <| Pod.set_ID := dgraph.mkID uid xid |>
           <| Pod.set_Containers := containers |>
           <| Pod.set_CPURequest := Metrics_CPURequest metrics |>
           <| Pod.set_CPULimit := Metrics_CPULimit metrics |>
           <| Pod.set_MemoryRequest := Metrics_MemoryRequest metrics |>
           <| Pod.set_MemoryLimit := Metrics_MemoryLimit metrics |>.

(** The [err] of a store result. *)
Definition err_of {A} (r : A + error) : option error :=
  match r with
  | inl _ => None
  | inr err => Some err
  end.

(** [StorePod] from [podDeletedTimestamp := ...] on, where the [uid] is
    known: the code before it either falls through to here or returns the
    error of [newPod]. *)
Definition StorePod_mutate (k8sPod : api_v1.Pod) (xid uid : string)
  : M (option error) :=
  let podDeletedTimestamp := api_v1.DeletionTimestamp k8sPod in
  pod <-
    (if negb (api_v1.IsZero podDeletedTimestamp) then
       match podDeletedTimestamp with
       | None => panic (* [.Time] of a nil pointer; [IsZero] excludes it *)
       | Some t =>
           let pod := terminatedPod xid uid t in
           _ <- deleteContainersInTerminatedPod (Pod.Containers pod) t ;;
           ret pod
       end
     else
       namespaceUID <- CreateOrGetNamespaceByID (api_v1.Namespace k8sPod) ;;
       '(containers, metrics) <-
         StoreAndRetrieveContainersAndMetrics k8sPod uid namespaceUID ;;
       populatePodLabels (updatedPod xid uid containers metrics)
                         (api_v1.Labels k8sPod)) ;;
  r <- MutateNode pod dgraph.UPDATE ;;
  ret (err_of r).

Definition StorePod (k8sPod : api_v1.Pod) : M (option error) :=
  let xid := xid_of (api_v1.Namespace k8sPod) (api_v1.Pod_Name k8sPod) in
  uid <- GetUID xid IsPod ;;
  if is_empty uid then
    r <- newPod k8sPod ;;
    match r with
    | inr err => ret (Some err)
    | inl assigned =>
        _ <- log Info ("Pod with xid: (" +:+ xid
                       +:+ ") persisted in dgraph") ;;
        let uid := dgraph.at_key (dgraph.Uids assigned) "blank-0" in
        StorePod_mutate k8sPod xid uid
    end
  else StorePod_mutate k8sPod xid uid.

(** *** [StorePodsInteraction] *)

Fixpoint retrievePodsFromPodsXIDs_loop (podsXIDs : list string)
    (pods : list Pod.t) : M (list Pod.t) :=
  match podsXIDs with
  | [] => ret pods
  | podXID :: podsXIDs =>
      podUID <- GetUID podXID IsPod ;;
      if is_empty podUID then
        _ <- log Debug ("Pod uid is empty for pod xid: " +:+ podXID) ;;
        retrievePodsFromPodsXIDs_loop podsXIDs pods
      else
        let pod := Pod.zero <| Pod.set_ID := dgraph.mkID podUID podXID |> in
        retrievePodsFromPodsXIDs_loop podsXIDs (pods ++ [pod])
  end.

Definition retrievePodsFromPodsXIDs (podsXIDs : list string)
  : M (list Pod.t) :=
  retrievePodsFromPodsXIDs_loop podsXIDs [].

(** [for index, podXID := range podsXIDs], on the ids still to visit;
    [counts[index]] panics when [index] is out of range. *)
Fixpoint retrievePodsWithCountAsEdgeWeightFromPodsXIDs_loop
    (podsXIDs : list string) (counts : list float64) (index : nat)
    (pods : list Pod.t) : M (list Pod.t) :=
  match podsXIDs with
  | [] => ret pods
  | podXID :: podsXIDs =>
      podUID <- GetUID podXID IsPod ;;
      if is_empty podUID then
        _ <- log Info ("Destination pod: " +:+ podXID
                       +:+ " is not persisted yet") ;;
        retrievePodsWithCountAsEdgeWeightFromPodsXIDs_loop
          podsXIDs counts (S index) pods
      else
        match counts !! index with
        | None => panic
        | Some count =>
            let pod := Pod.zero <| Pod.set_ID := dgraph.mkID podUID podXID |>
                                <| Pod.set_Count := count |> in
            retrievePodsWithCountAsEdgeWeightFromPodsXIDs_loop
              podsXIDs counts (S index) (pods ++ [pod])
        end
  end.

Definition retrievePodsWithCountAsEdgeWeightFromPodsXIDs
    (podsXIDs : list string) (counts : list float64) : M (list Pod.t) :=
  retrievePodsWithCountAsEdgeWeightFromPodsXIDs_loop podsXIDs counts 0 [].

Definition StorePodsInteraction (sourcePodXID : string)
    (destinationPodsXIDs : list string) (counts : list float64)
  : M (option error) :=
  uid <- GetUID sourcePodXID IsPod ;;
  if is_empty uid then
    _ <- log Info ("Source Pod " +:+ sourcePodXID
                   +:+ " is not persisted yet.") ;;
    ret (Some ("source pod: " +:+ sourcePodXID +:+ " is not persisted yet"))
  else
    pods <- retrievePodsWithCountAsEdgeWeightFromPodsXIDs
              destinationPodsXIDs counts ;;
    let source := Pod.zero <| Pod.set_ID := dgraph.mkID uid sourcePodXID |>
                           <| Pod.set_Pods := pods |> in
    r <- MutateNode source dgraph.UPDATE ;;
    ret (err_of r).

End Handler.

(** ** Reading a trace *)

(** The create-or-get calls, in order: the kind and the external id asked
    for. *)
Fixpoint requested (tr : list Event) : list (RelKind * string) :=
  match tr with
  | [] => []
  | EvCreateOrGet k xid _ :: tr => (k, xid) :: requested tr
  | _ :: tr => requested tr
  end.

(** The identities that the create-or-get calls of kind [k] returned: a call
    that came back with the empty id resolved nothing. *)
Fixpoint resolved (k : RelKind) (tr : list Event) : list dgraph.ID :=
  match tr with
  | [] => []
  | EvCreateOrGet k' xid uid :: tr =>
      if bool_decide (k' = k) && negb (is_empty uid)
      then dgraph.mkID uid xid :: resolved k tr
      else resolved k tr
  | _ :: tr => resolved k tr
  end.

(** The internal ids whose volume claim was read back with [getPVCFromUID]. *)
Fixpoint pvc_lookups (tr : list Event) : list string :=
  match tr with
  | [] => []
  | EvGetPVC uid _ :: tr => uid :: pvc_lookups tr
  | _ :: tr => pvc_lookups tr
  end.

(** The storage capacities of the claims that were read back without
    error. *)
Fixpoint capacities (tr : list Event) : list float64 :=
  match tr with
  | [] => []
  | EvGetPVC _ (inl pvc) :: tr => StorageCapacity pvc :: capacities tr
  | _ :: tr => capacities tr
  end.

(** The entities sent to the store. *)
Fixpoint mutations (tr : list Event) : list (Pod.t * dgraph.MutateType) :=
  match tr with
  | [] => []
  | EvMutateNode p m _ :: tr => (p, m) :: mutations tr
  | _ :: tr => mutations tr
  end.

(** The container lists handed to the termination cascade. *)
Fixpoint cascades (tr : list Event) : list (list Container) :=
  match tr with
  | [] => []
  | EvDeleteContainers cs _ :: tr => cs :: cascades tr
  | _ :: tr => cascades tr
  end.

(** The sum of a list of [float64], added up from [0.0] in list order, as
    the loop [storage += c] does. *)
Definition sum_float64 (l : list float64) : float64 :=
  fold_left PrimFloat.add l 0%float.

(** The volume-claim relation built from an identity. *)
Definition claim_of (id : dgraph.ID) : PersistentVolumeClaim :=
  {| PersistentVolumeClaim_ID := id; StorageCapacity := 0%float |}.

(** The external ids of the volume claims among the volumes of a pod. *)
Definition claims (namespace : string) (vols : list api_v1.Volume)
  : list string :=
  omap (λ vol, xid_of namespace <$>
                 (api_v1.ClaimName <$> api_v1.PersistentVolumeClaim vol))
       vols.

(** The owner kinds the handler knows. *)
Definition owner_kind (kind : string) : option RelKind :=
  if String.eqb kind "Deployment" then Some KDeployment
  else if String.eqb kind "ReplicaSet" then Some KReplicaset
  else if String.eqb kind "StatefulSet" then Some KStatefulset
  else if String.eqb kind "Job" then Some KJob
  else if String.eqb kind "DaemonSet" then Some KDaemonset
  else None.

(** The identity in the owner field of a kind; [None] for a kind that has
    no owner field. *)
Definition owner_field (k : RelKind) (pod : Pod.t) : option dgraph.ID :=
  match k with
  | KDeployment => Deployment_ID <$> Pod.Deployment pod
  | KReplicaset => Replicaset_ID <$> Pod.Replicaset pod
  | KStatefulset => Statefulset_ID <$> Pod.Statefulset pod
  | KJob => Job_ID <$> Pod.Job pod
  | KDaemonset => Daemonset_ID <$> Pod.Daemonset pod
  | KNamespace | KPersistentVolumeClaim => None
  end.

Definition is_owner_kind (k : RelKind) : bool :=
  match k with
  | KDeployment | KReplicaset | KStatefulset | KJob | KDaemonset => true
  | KNamespace | KPersistentVolumeClaim => false
  end.

(** The create-or-get call that an owner reference gives rise to, if its
    kind is known. *)
Definition owner_request (namespace : string) (owner : api_v1.OwnerReference)
  : option (RelKind * string) :=
  (λ k, (k, xid_of namespace (api_v1.Name owner))) <$>
    owner_kind (api_v1.Kind owner).

(** The owner of kind [k] after the calls of a trace: the identity that the
    last call of that kind returned, or, when no call of that kind returned
    one, the owner there was [before]. *)
Definition attached (k : RelKind) (tr : list Event)
    (before : option dgraph.ID) : option dgraph.ID :=
  match last (resolved k tr) with
  | Some id => Some id
  | None => before
  end.

(** A pod with its five owner fields blanked. *)
Definition without_owners (pod : Pod.t) : Pod.t :=
  pod <| Pod.set_Deployment := None |>
      <| Pod.set_Replicaset := None |>
      <| Pod.set_Statefulset := None |>
      <| Pod.set_Job := None |>
      <| Pod.set_Daemonset := None |>.

(** The create-phase entity as it stands before the owners are filled
    in. *)
Definition createdPod `{!Collaborators W} (k8sPod : api_v1.Pod)
    (node : option Node) (namespace : option Namespace)
    (pvcs : list PersistentVolumeClaim) (storage : float64) : Pod.t :=
  Pod.zero
    <| Pod.set_Name := "pod-" +:+ api_v1.Pod_Name k8sPod |>
    <| Pod.set_IsPod := true |>
    <| Pod.set_Type := "pod" |>
    <| Pod.set_ID :=
         dgraph.mkID "" (xid_of (api_v1.Namespace k8sPod)
                                (api_v1.Pod_Name k8sPod)) |>
    <| Pod.set_StartTime := Format_RFC3339 (api_v1.CreationTimestamp k8sPod) |>
    <| Pod.set_Node := node |>
    <| Pod.set_Namespace := namespace |>
    <| Pod.set_Pvcs := pvcs |>
    <| Pod.set_StorageRequest := storage |>.

(** The edge to a destination: none when its external id does not
    resolve, else the destination's identity with the count as weight. *)
Definition edge_to `{!GraphStore W} (w : W) (xid : string) (count : float64)
  : option Pod.t :=
  let uid := dgraph_GetUID xid IsPod w in
  if is_empty uid then None
  else Some (Pod.zero <| Pod.set_ID := dgraph.mkID uid xid |>
                      <| Pod.set_Count := count |>).

(** The edges for destinations and counts paired index by index. *)
Definition edges `{!GraphStore W} (w : W) (destinations : list string)
    (counts : list float64) : list Pod.t :=
  omap (λ dc, edge_to w dc.1 dc.2) (zip destinations counts).

(** Every destination that resolves has a count at its index. *)
Fixpoint counts_cover `{!GraphStore W} (w : W) (destinations : list string)
    (counts : list float64) : bool :=
  match destinations with
  | [] => true
  | xid :: destinations =>
      match counts with
      | [] => is_empty (dgraph_GetUID xid IsPod w)
      | _ :: _ => true
      end && counts_cover w destinations (tail counts)
  end.

(** The lookups of the destinations, with the log line of each that does
    not resolve. *)
Fixpoint destination_lookups `{!GraphStore W} (w : W)
    (destinations : list string) : list Event :=
  match destinations with
  | [] => []
  | xid :: destinations =>
      let uid := dgraph_GetUID xid IsPod w in
      EvGetUID xid IsPod uid
      :: (if is_empty uid
          then [EvLog Info ("Destination pod: " +:+ xid
                            +:+ " is not persisted yet")]
          else [])
      ++ destination_lookups w destinations
  end.

(** The entity that records the interactions of a source pod. *)
Definition interactionPod (uid sourcePodXID : string) (pods : list Pod.t)
  : Pod.t :=
  Pod.zero <| Pod.set_ID := dgraph.mkID uid sourcePodXID |>
           <| Pod.set_Pods := pods |>.

(** The external ids asked for in the create-or-get calls of kind [k]. *)
Definition requested_of (k : RelKind) (tr : list Event) : list string :=
  snd <$> filter (λ kx, kx.1 = k) (requested tr).

(** The external id under which a cluster pod is stored. *)
Definition pod_xid (k8sPod : api_v1.Pod) : string :=
  xid_of (api_v1.Namespace k8sPod) (api_v1.Pod_Name k8sPod).

(** Total correctness of a computation: it does not panic, and its result,
    final world and trace satisfy [Q]. *)
Definition wp {W A} (m : M W A) (Q : A → W → list Event → Prop) (w : W)
  : Prop :=
  match m w with
  | Some (a, w', tr) => Q a w' tr
  | None => False
  end.

(** The parts of a run. *)
Definition result_of {W A} (r : option (A * W * list Event)) : option A :=
  (λ x, x.1.1) <$> r.
Definition world_of {W A} (r : option (A * W * list Event)) : option W :=
  (λ x, x.1.2) <$> r.
Definition trace_of {W A} (r : option (A * W * list Event)) : list Event :=
  default [] ((λ x, x.2) <$> r).

(** A relation between the world before and the world after that every
    call to another handler respects. *)
Record Frame {W} `{!Collaborators W} (Rel : W → W → Prop) : Prop :=
  { frame_refl : ∀ w, Rel w w;
    frame_trans : ∀ w1 w2 w3, Rel w1 w2 → Rel w2 w3 → Rel w1 w3;
    frame_node : ∀ xid w, Rel w (collab_createOrGetNodeByID xid w).2;
    frame_create_or_get : ∀ k xid w, Rel w (collab_CreateOrGetByID k xid w).2;
    frame_pvc : ∀ uid w, Rel w (collab_getPVCFromUID uid w).2;
    frame_containers : ∀ k8sPod podUID namespaceUID w,
      Rel w (collab_StoreAndRetrieveContainersAndMetrics
               k8sPod podUID namespaceUID w).2;
    frame_cascade : ∀ containers t w,
      Rel w (collab_deleteContainersInTerminatedPod containers t w);
    frame_label : ∀ key value w, Rel w (collab_GetLabel key value w).2 }.

(** ** A graph store for pods

    [dgraph.GetUID] and [dgraph.MutateNode] are in package dgraph, and the
    store behind them is a server; neither is in this file.  The module
    below is a model of the two functions, written from what the
    specification says of the store, for the properties that depend on
    what the store does with a mutation. *)
Module Store.

(** Modelled from the spec: the state behind [dgraph.GetUID] and
    [dgraph.MutateNode], which are not in this file.  It keeps the persisted
    pod entities by internal id, the outcomes of the coming mutations (a
    mutation can be rejected; past the end of the list every mutation is
    accepted), and, as [rest], whatever the handlers of the other kinds
    keep. *)
Record World (R : Type) : Type := mkWorld
  { pods : gmap string Pod.t;
    outcomes : list (option error);
    rest : R }.

Arguments mkWorld {R} _ _ _.
Arguments pods {R} _.
Arguments outcomes {R} _.
Arguments rest {R} _.

(** The entity is a pod with the external id [xid]. *)
Definition is_pod_with_xid (xid : string) (p : Pod.t) : bool :=
  Pod.IsPod p && String.eqb (dgraph.Xid (Pod.ID p)) xid.

(** The persisted pod entities with the external id [xid]. *)
Definition pod_entities (xid : string) (m : gmap string Pod.t)
  : gmap string Pod.t :=
  filter (λ kv, is_pod_with_xid xid kv.2 = true) m.

(** Modelled from the spec: [dgraph.GetUID], not in this file.
    "lookup(externalID, discriminatorPredicate) → internalID | empty": the
    internal id of an entity that carries the discriminator and the
    external id, the empty string when there is none.  Only pods are kept
    here, so only the pod discriminator finds anything. *)
Definition lookup (xid predicate : string) (m : gmap string Pod.t) : string :=
  if String.eqb predicate IsPod then
    match map_to_list (pod_entities xid m) with
    | [] => ""
    | (uid, _) :: _ => uid
    end
  else "".

(** Modelled from the spec: what an update writes over a stored field
    (part of [dgraph.MutateNode], not in this file).  Every field of [Pod]
    is tagged [omitempty], so a field at its zero value is not in the
    document sent and the stored value stays. *)
Definition over_string (old new : string) : string :=
  if String.eqb new "" then old else new.
Definition over_float (old new : float64) : float64 :=
  if PrimFloat.eqb new 0 then old else new.
Definition over_option {A} (old new : option A) : option A :=
  match new with
  | None => old
  | Some _ => new
  end.
(** Modelled from the spec: "owned label set (full-replace on each
    update)". *)
Definition over_list {A} (old new : list A) : list A :=
  match new with
  | [] => old
  | _ => new
  end.
(** Modelled from the spec: edges are added and never removed; "a later
    call for the same destination replaces its weight". *)
Definition over_edges {A} (target : A → string) (old new : list A) : list A :=
  filter (λ a, target a ∉ target <$> new) old ++ new.

(** Modelled from the spec: the stored entity after an update, field by
    field (part of [dgraph.MutateNode], not in this file). *)
Definition merge (old new : Pod.t) : Pod.t :=
  Pod.mk
    (dgraph.mkID
       (over_string (dgraph.UID (Pod.ID old)) (dgraph.UID (Pod.ID new)))
       (over_string (dgraph.Xid (Pod.ID old)) (dgraph.Xid (Pod.ID new))))
    (Pod.IsPod old || Pod.IsPod new)
    (over_string (Pod.Name old) (Pod.Name new))
    (over_string (Pod.StartTime old) (Pod.StartTime new))
    (over_string (Pod.EndTime old) (Pod.EndTime new))
    (over_edges (λ c, dgraph.UID (Container_ID c))
       (Pod.Containers old) (Pod.Containers new))
    (over_edges (λ p, dgraph.UID (Pod.ID p)) (Pod.Pods old) (Pod.Pods new))
    (over_float (Pod.Count old) (Pod.Count new))
    (over_option (Pod.Node old) (Pod.Node new))
    (over_option (Pod.Namespace old) (Pod.Namespace new))
    (over_option (Pod.Deployment old) (Pod.Deployment new))
    (over_option (Pod.Replicaset old) (Pod.Replicaset new))
    (over_option (Pod.Statefulset old) (Pod.Statefulset new))
    (over_option (Pod.Daemonset old) (Pod.Daemonset new))
    (over_option (Pod.Job old) (Pod.Job new))
    (over_edges (λ c, dgraph.UID (PersistentVolumeClaim_ID c))
       (Pod.Pvcs old) (Pod.Pvcs new))
    (over_float (Pod.CPURequest old) (Pod.CPURequest new))
    (over_float (Pod.CPULimit old) (Pod.CPULimit new))
    (over_float (Pod.MemoryRequest old) (Pod.MemoryRequest new))
    (over_float (Pod.MemoryLimit old) (Pod.MemoryLimit new))
    (over_float (Pod.StorageRequest old) (Pod.StorageRequest new))
    (over_string (Pod.Type_ old) (Pod.Type_ new))
    (over_edges (λ c, dgraph.UID (Service_ID c)) (Pod.Cid old) (Pod.Cid new))
    (over_list (Pod.Labels old) (Pod.Labels new)).

(** Modelled from the spec: the internal id the store assigns to the next
    new node (part of [dgraph.MutateNode], not in this file): a non-empty
    id that no stored entity has. *)
Definition fresh_uid (m : gmap string Pod.t) : string :=
  fresh ({[ "" ]} ∪ dom m).

(** Modelled from the spec: an accepted mutation (part of
    [dgraph.MutateNode], not in this file).  "A CREATE call is expected to
    introduce exactly one new node; its assigned id is retrieved via a
    fixed first-blank-node key."  An UPDATE writes the fields the entity
    carries to the node with the entity's internal id. *)
Definition apply (p : Pod.t) (mode : dgraph.MutateType)
    (m : gmap string Pod.t) : dgraph.Assigned * gmap string Pod.t :=
  match mode with
  | dgraph.CREATE =>
      let uid := fresh_uid m in
      (dgraph.mkAssigned {[ "blank-0" := uid ]},
       <[ uid := p <| Pod.set_ID := dgraph.mkID uid (dgraph.Xid (Pod.ID p)) |> ]> m)
  | dgraph.UPDATE =>
      let uid := dgraph.UID (Pod.ID p) in
      (dgraph.mkAssigned ∅,
       <[ uid := merge (default Pod.zero (m !! uid)) p ]> m)
  end.

(** Modelled from the spec: [dgraph.MutateNode], not in this file.
    "mutate(entity, mode ∈ {CREATE, UPDATE}) → (assignedIDs, error)": the
    store rejects the mutation with an error and changes nothing, or
    applies it. *)
Definition mutate {R} (p : Pod.t) (mode : dgraph.MutateType) (w : World R)
  : (dgraph.Assigned + error) * World R :=
  match outcomes w with
  | Some err :: rest_outcomes =>
      (inr err, mkWorld (pods w) rest_outcomes (rest w))
  | _ =>
      let '(assigned, m) := apply p mode (pods w) in
      (inl assigned, mkWorld m (tail (outcomes w)) (rest w))
  end.

#[global] Instance graph_store {R} : GraphStore (World R) :=
  {| dgraph_GetUID xid predicate w := lookup xid predicate (pods w);
     dgraph_MutateNode := mutate |}.

(** Modelled from the spec: the handlers of the other kinds are "external
    collaborators" that persist entities of their own kind; in this model
    they act on [rest] alone, so none of them creates or changes a pod
    entity or uses up the outcome of a pod mutation. *)
Definition on_rest {R A} (f : R → A * R) (w : World R) : A * World R :=
  let '(a, r) := f (rest w) in (a, mkWorld (pods w) (outcomes w) r).

#[global] Instance collaborators {R} `{!Collaborators R}
  : Collaborators (World R) :=
  {| collab_createOrGetNodeByID xid := on_rest (collab_createOrGetNodeByID xid);
     collab_CreateOrGetByID k xid := on_rest (collab_CreateOrGetByID k xid);
     collab_getPVCFromUID uid := on_rest (collab_getPVCFromUID uid);
     collab_StoreAndRetrieveContainersAndMetrics k8sPod podUID namespaceUID :=
       on_rest (collab_StoreAndRetrieveContainersAndMetrics
                  k8sPod podUID namespaceUID);
     collab_deleteContainersInTerminatedPod containers t w :=
       mkWorld (pods w) (outcomes w)
         (collab_deleteContainersInTerminatedPod containers t (rest w));
     collab_GetLabel key value := on_rest (collab_GetLabel key value);
     Format_RFC3339 := Format_RFC3339;
     Sprint_labels := Sprint_labels |}.

(** Every stored entity records the internal id it is stored under. *)
Definition wf (m : gmap string Pod.t) : Prop :=
  map_Forall (λ uid p, dgraph.UID (Pod.ID p) = uid) m.

#[global] Instance wf_dec m : Decision (wf m).
Proof. unfold wf. apply _. Defined.

(** The pods and the outcomes of the coming mutations are the same in both
    worlds. *)
Definition same_pods {R} (w w' : World R) : Prop :=
  pods w' = pods w ∧ outcomes w' = outcomes w.

(** The coming mutation is accepted. *)
Definition accepts {R} (w : World R) : bool :=
  match outcomes w with
  | Some _ :: _ => false
  | _ => true
  end.

End Store.

(** ** A small cluster to run the handler on *)
Module Scenario.

(** The other handlers, scripted: the external ids whose create-or-get
    yields no id, the nodes that cannot be resolved, and the capacity on
    record for the internal id of a volume claim. *)
Record Cluster : Set :=
  { unresolved : list string;
    capacities : list (string * float64) }.

Fixpoint capacity_of (uid : string) (l : list (string * float64))
  : option float64 :=
  match l with
  | [] => None
  | (u, c) :: l => if String.eqb u uid then Some c else capacity_of uid l
  end.

Definition resolve (xid : string) (c : Cluster) : string :=
  if bool_decide (xid ∈ unresolved c) then "" else "0x" +:+ xid.

#[global] Instance cluster_collaborators : Collaborators Cluster :=
  {| collab_createOrGetNodeByID xid c :=
       (if bool_decide (xid ∈ unresolved c)
        then ("", Some ("node " +:+ xid +:+ " not found"))
        else ("0x" +:+ xid, None), c);
     collab_CreateOrGetByID _ xid c := (resolve xid c, c);
     collab_getPVCFromUID uid c :=
       (match capacity_of uid (capacities c) with
        | Some cap =>
            inl {| PersistentVolumeClaim_ID := dgraph.mkID uid "";
                   StorageCapacity := cap |}
        | None => inr ("no pvc with uid " +:+ uid)
        end, c);
     collab_StoreAndRetrieveContainersAndMetrics _ _ _ c :=
       (([], {| Metrics_CPURequest := 0%float; Metrics_CPULimit := 0%float;
                Metrics_MemoryRequest := 0%float;
                Metrics_MemoryLimit := 0%float |}), c);
     collab_deleteContainersInTerminatedPod _ _ c := c;
     collab_GetLabel key value c :=
       ({| Label_ID := dgraph.mkID "" ("label-" +:+ key +:+ "-" +:+ value) |}, c);
     Format_RFC3339 t :=
       if time.IsZero t then "0001-01-01T00:00:00Z" else "2018-10-01T12:00:00Z";
     Sprint_labels _ := "map[]" |}.

Definition quiet : Cluster := {| unresolved := []; capacities := [] |}.

(** An empty store over a cluster, every mutation accepted. *)
Definition empty_world (c : Cluster) : Store.World Cluster :=
  Store.mkWorld ∅ [] c.

Definition t0 : time.Time := time.mkTime 0 0.
Definition t1 : time.Time := time.mkTime 63674000000 0.

Definition pod1 : api_v1.Pod :=
  {| api_v1.Pod_Name := "p1";
     api_v1.Namespace := "ns";
     api_v1.CreationTimestamp := t1;
     api_v1.DeletionTimestamp := None;
     api_v1.OwnerReferences :=
       [ {| api_v1.Kind := "ReplicaSet"; api_v1.Name := "rs1" |};
         {| api_v1.Kind := "Widget"; api_v1.Name := "x" |} ];
     api_v1.Labels := [("app", "web")];
     api_v1.Spec :=
       {| api_v1.NodeName := "node1";
          api_v1.Volumes :=
            [ {| api_v1.PersistentVolumeClaim :=
                   Some {| api_v1.ClaimName := "claim1" |} |};
              {| api_v1.PersistentVolumeClaim := None |};
              {| api_v1.PersistentVolumeClaim :=
                   Some {| api_v1.ClaimName := "claim2" |} |} ] |} |}.

Definition pod2 : api_v1.Pod :=
  {| api_v1.Pod_Name := "p2";
     api_v1.Namespace := "ns";
     api_v1.CreationTimestamp := t1;
     api_v1.DeletionTimestamp := None;
     api_v1.OwnerReferences := [];
     api_v1.Labels := [];
     api_v1.Spec := {| api_v1.NodeName := "node1"; api_v1.Volumes := [] |} |}.

(** [pod1] once it is being deleted. *)
Definition pod1_deleted : api_v1.Pod :=
  {| api_v1.Pod_Name := api_v1.Pod_Name pod1;
     api_v1.Namespace := api_v1.Namespace pod1;
     api_v1.CreationTimestamp := api_v1.CreationTimestamp pod1;
     api_v1.DeletionTimestamp := Some t1;
     api_v1.OwnerReferences := api_v1.OwnerReferences pod1;
     api_v1.Labels := api_v1.Labels pod1;
     api_v1.Spec := api_v1.Spec pod1 |}.

(** A pod with two owners of one kind. *)
Definition pod3 : api_v1.Pod :=
  {| api_v1.Pod_Name := "p3";
     api_v1.Namespace := "ns";
     api_v1.CreationTimestamp := t1;
     api_v1.DeletionTimestamp := None;
     api_v1.OwnerReferences :=
       [ {| api_v1.Kind := "ReplicaSet"; api_v1.Name := "rs1" |};
         {| api_v1.Kind := "ReplicaSet"; api_v1.Name := "rs2" |} ];
     api_v1.Labels := [];
     api_v1.Spec := {| api_v1.NodeName := "node1"; api_v1.Volumes := [] |} |}.

(** A cluster where the first claim of [pod1] has capacity 10 and the second,
    of capacity 20, does not resolve. *)
Definition second_claim_lost : Cluster :=
  {| unresolved := ["ns:claim2"];
     capacities := [("0xns:claim1", 10%float); ("0xns:claim2", 20%float)] |}.

(** A cluster where both claims resolve and only the second can be read
    back. *)
Definition first_claim_unreadable : Cluster :=
  {| unresolved := [];
     capacities := [("0xns:claim2", 20%float)] |}.

(** The world after a [StorePod] call. *)
Definition after (k8sPod : api_v1.Pod) (w : Store.World Cluster)
  : Store.World Cluster :=
  default w (world_of (StorePod k8sPod w)).

(** [pod1] stored, then [pod2]. *)
Definition world1 : Store.World Cluster := after pod1 (empty_world quiet).
Definition world12 : Store.World Cluster := after pod2 world1.

End Scenario.

(** ** Further readings of a trace *)

(** The container synchronisations: the pod id and the namespace id they
    were called with. *)
Fixpoint syncs (tr : list Event) : list (string * string) :=
  match tr with
  | [] => []
  | EvStoreContainers _ podUID namespaceUID _ :: tr =>
      (podUID, namespaceUID) :: syncs tr
  | _ :: tr => syncs tr
  end.

(** The label entries asked for with [GetLabel], and the labels that came
    back. *)
Fixpoint label_requests (tr : list Event) : list (string * string) :=
  match tr with
  | [] => []
  | EvGetLabel key value _ :: tr => (key, value) :: label_requests tr
  | _ :: tr => label_requests tr
  end.

Fixpoint labels_got (tr : list Event) : list Label :=
  match tr with
  | [] => []
  | EvGetLabel _ _ l :: tr => l :: labels_got tr
  | _ :: tr => labels_got tr
  end.

(** The external ids looked up with [dgraph.GetUID]. *)
Fixpoint lookups (tr : list Event) : list string :=
  match tr with
  | [] => []
  | EvGetUID xid _ _ :: tr => xid :: lookups tr
  | _ :: tr => lookups tr
  end.

(** The log lines. *)
Fixpoint logs (tr : list Event) : list (Level * string) :=
  match tr with
  | [] => []
  | EvLog lvl msg :: tr => (lvl, msg) :: logs tr
  | _ :: tr => logs tr
  end.

(** The calls that building and persisting a new pod may make: the node,
    relation and volume-claim handlers, the log and the store mutation. *)
Definition create_phase_call (e : Event) : bool :=
  match e with
  | EvCreateOrGetNode _ _ _ | EvCreateOrGet _ _ _ | EvGetPVC _ _
  | EvLog _ _ | EvMutateNode _ _ _ => true
  | EvGetUID _ _ _ | EvStoreContainers _ _ _ _ | EvDeleteContainers _ _
  | EvGetLabel _ _ _ => false
  end.

(** The pod for a destination that resolves, without a weight. *)
Definition plain_pod `{!GraphStore W} (w : W) (xid : string) : option Pod.t :=
  let uid := dgraph_GetUID xid IsPod w in
  if is_empty uid then None
  else Some (Pod.zero <| Pod.set_ID := dgraph.mkID uid xid |>).

(** The lookups of [retrievePodsFromPodsXIDs], with the debug line of each
    id that does not resolve. *)
Fixpoint plain_lookups `{!GraphStore W} (w : W) (podsXIDs : list string)
  : list Event :=
  match podsXIDs with
  | [] => []
  | xid :: podsXIDs =>
      let uid := dgraph_GetUID xid IsPod w in
      EvGetUID xid IsPod uid
      :: (if is_empty uid
          then [EvLog Debug ("Pod uid is empty for pod xid: " +:+ xid)]
          else [])
      ++ plain_lookups w podsXIDs
  end.

(** The event that one owner reference leaves in the trace is a
    create-or-get call when its kind is known and an error line when it is
    not. *)
Definition is_owner_event (namespace : string)
    (owner : api_v1.OwnerReference) (e : Event) : Prop :=
  match owner_kind (api_v1.Kind owner) with
  | Some k =>
      ∃ uid, e = EvCreateOrGet k (xid_of namespace (api_v1.Name owner)) uid
  | None =>
      e = EvLog Error ("Unknown owner type " +:+ api_v1.Kind owner
                       +:+ " for pod.")
  end.

(** A pod of namespace ns whose owners are all of kinds that are not
    handled and whose only volume is not a volume claim. *)
Definition bare_pod : api_v1.Pod :=
  {| api_v1.Pod_Name := "p4";
     api_v1.Namespace := "ns";
     api_v1.CreationTimestamp := Scenario.t1;
     api_v1.DeletionTimestamp := None;
     api_v1.OwnerReferences :=
       [ {| api_v1.Kind := "Widget"; api_v1.Name := "x" |};
         {| api_v1.Kind := "CronJob"; api_v1.Name := "nightly" |} ];
     api_v1.Labels := [];
     api_v1.Spec :=
       {| api_v1.NodeName := "node1";
          api_v1.Volumes :=
            [ {| api_v1.PersistentVolumeClaim := None |} ] |} |}.

(** ** The capacity service of the UI
    (ui/src/app/modules/capacity-graph/services/capacity-graph.service.ts) *)

(** The values that the untyped optional parameters are given: left out,
    [null], a boolean flag or a string.  Numbers and objects are not
    covered. *)
Module js.

Inductive value : Set :=
| undefined
| null
| boolean (b : bool)
| str (s : string).

(** [ToBoolean], as [if (v)] and [!v] apply it. *)
Definition truthy (v : value) : bool :=
  match v with
  | undefined | null => false
  | boolean b => b
  | str s => negb (String.eqb s "")
  end.

(** [ToString], as [s + v] applies it when [s] is a string. *)
Definition to_string (v : value) : string :=
  match v with
  | undefined => "undefined"
  | null => "null"
  | boolean true => "true"
  | boolean false => "false"
  | str s => s
  end.

End js.

Module CapacityGraphService.

(** The call [this.http.get(_url, {observe: 'body', responseType: 'json'})]
    that the method returns. *)
Record HttpGet : Set :=
  { url : string; observe : string; responseType : string }.

Definition getCapacityData (view type name : js.value) : HttpGet :=
  let _devUrl := "./json/capacity.json" in
  let _url := "http://localhost:3030/metrics" in
  let _url :=
    if js.truthy type then (_url +:+ "/") +:+ js.to_string type else _url in
  let _url :=
    if js.truthy view && negb (js.truthy name)
    then _url +:+ "?view=physical" else _url in
  let '(_url, _devUrl) :=
    if js.truthy name
    then ((_url +:+ "?name=") +:+ js.to_string name, "./json/capacity1.json")
    else (_url, _devUrl) in
  {| url := _url; observe := "body"; responseType := "json" |}.

End CapacityGraphService.

(** The number of occurrences of a character in a string. *)
Fixpoint count_char (c : Ascii.ascii) (s : string) : nat :=
  match s with
  | EmptyString => 0
  | String c' s => (if Ascii.eqb c' c then 1 else 0) + count_char c s
  end.

(** The character that opens the query part of a URL. *)
Module chars.
Import Stdlib.Strings.Ascii.
Definition question_mark : ascii := "?"%char.
End chars.

(** * Properties *)

(** ** Rules for [wp] *)
Section Rules.

Context {W : Type}.

Lemma wp_run {A} (m : M W A) Q (w : W) :
  wp m Q w ↔ ∃ a w' tr, m w = Some (a, w', tr) ∧ Q a w' tr.
Proof.
  unfold wp. split.
  - destruct (m w) as [[[a w'] tr]|]; [eauto | tauto].
  - intros (a & w' & tr & -> & HQ). exact HQ.
Qed.

Lemma wp_mono {A} (m : M W A) (Q Q' : A → W → list Event → Prop) (w : W) :
  wp m Q w → (∀ a w' tr, Q a w' tr → Q' a w' tr) → wp m Q' w.
Proof.
  unfold wp. destruct (m w) as [[[a w'] tr]|]; [auto | tauto].
Qed.

Lemma wp_ret {A} (a : A) Q (w : W) : Q a w [] → wp (ret a) Q w.
Proof. exact id. Qed.

Lemma wp_bind {A B} (m : M W A) (f : A → M W B) Q (w : W) :
  wp m (λ a w1 t1, wp (f a) (λ b w2 t2, Q b w2 (t1 ++ t2)) w1) w →
  wp (bind m f) Q w.
Proof.
  unfold wp, bind. destruct (m w) as [[[a w1] t1]|]; [| tauto].
  destruct (f a w1) as [[[b w2] t2]|]; [auto | tauto].
Qed.

Lemma wp_call {A} (f : W → A * W) ev Q (w : W) :
  Q (f w).1 (f w).2 [ev (f w).1] → wp (call f ev) Q w.
Proof. unfold wp, call. destruct (f w) as [a w']. exact id. Qed.

Lemma wp_query {A} (f : W → A) ev Q (w : W) :
  Q (f w) w [ev (f w)] → wp (query f ev) Q w.
Proof. exact id. Qed.

Lemma wp_emit e (Q : unit → W → list Event → Prop) (w : W) :
  Q tt w [e] → wp (emit e) Q w.
Proof. exact id. Qed.

End Rules.

Ltac wp_step :=
  lazymatch goal with
  | |- wp (bind _ _) _ _ => apply wp_bind
  | |- wp (ret _) _ _ => apply wp_ret
  | |- wp (call _ _) _ _ => apply wp_call
  | |- wp (query _ _) _ _ => apply wp_query
  | |- wp (emit _) _ _ => apply wp_emit
  | |- wp (log _ _) _ _ => apply wp_emit
  | |- wp (CreateOrGetByID _ _) _ _ => apply wp_call
  | |- wp (getPVCFromUID _) _ _ => apply wp_call
  | |- wp (GetUID _ _) _ _ => apply wp_query
  | |- wp (MutateNode _ _) _ _ => apply wp_call
  | |- wp (createOrGetNodeByID _) _ _ => apply wp_call
  | |- wp (GetLabel _ _) _ _ => apply wp_call
  | |- wp (StoreAndRetrieveContainersAndMetrics _ _ _) _ _ => apply wp_call
  | |- wp (deleteContainersInTerminatedPod _ _) _ _ => apply wp_call
  end.

(** ** Traces of a sequence of computations *)

Lemma requested_app t1 t2 : requested (t1 ++ t2) = requested t1 ++ requested t2.
Proof.
  induction t1 as [| e t1 IH]; [done |].
  destruct e; simpl; by rewrite ?IH.
Qed.

Lemma resolved_app k t1 t2 :
  resolved k (t1 ++ t2) = resolved k t1 ++ resolved k t2.
Proof.
  induction t1 as [| e t1 IH]; [done |].
  destruct e; simpl; rewrite ?IH; try done.
  by destruct (bool_decide _ && _).
Qed.

Lemma pvc_lookups_app t1 t2 :
  pvc_lookups (t1 ++ t2) = pvc_lookups t1 ++ pvc_lookups t2.
Proof.
  induction t1 as [| e t1 IH]; [done |].
  destruct e; simpl; by rewrite ?IH.
Qed.

Lemma capacities_app t1 t2 :
  capacities (t1 ++ t2) = capacities t1 ++ capacities t2.
Proof.
  induction t1 as [| e t1 IH]; [done |].
  destruct e as [| | | | ? [] | | | |]; simpl; by rewrite ?IH.
Qed.

Lemma mutations_app t1 t2 : mutations (t1 ++ t2) = mutations t1 ++ mutations t2.
Proof.
  induction t1 as [| e t1 IH]; [done |].
  destruct e; simpl; by rewrite ?IH.
Qed.

Lemma cascades_app t1 t2 : cascades (t1 ++ t2) = cascades t1 ++ cascades t2.
Proof.
  induction t1 as [| e t1 IH]; [done |].
  destruct e; simpl; by rewrite ?IH.
Qed.

Lemma attached_app k t1 t2 before :
  attached k (t1 ++ t2) before = attached k t2 (attached k t1 before).
Proof.
  unfold attached. rewrite resolved_app, last_app.
  by destruct (last (resolved k t2)).
Qed.

(** ** What each function does, in terms of its trace *)
Section Specs.

Context {W : Type} `{!GraphStore W, !Collaborators W}.
Context (Rel : W → W → Prop) (F : Frame Rel).

Lemma getPodVolumes_loop_spec namespace vols podVolumes storage (w : W) :
  wp (getPodVolumes_loop namespace vols podVolumes storage)
     (λ r w' tr,
        Rel w w' ∧
        r.1 = podVolumes ++ (claim_of <$> resolved KPersistentVolumeClaim tr) ∧
        r.2 = fold_left PrimFloat.add (capacities tr) storage ∧
        requested tr = (λ xid, (KPersistentVolumeClaim, xid)) <$> claims namespace vols ∧
        pvc_lookups tr = dgraph.UID <$> resolved KPersistentVolumeClaim tr ∧
        mutations tr = [] ∧ cascades tr = []) w.
Proof.
  revert podVolumes storage w.
  induction vols as [| vol vols IH]; intros podVolumes storage w; simpl.
  - wp_step. simpl. rewrite app_nil_r.
    repeat split; auto. apply (frame_refl Rel F).
  - destruct vol as [[claim|]]; simpl.
    + unfold CreateOrGetPersistentVolumeClaimByID.
      wp_step. wp_step.
      pose proof (frame_create_or_get Rel F KPersistentVolumeClaim
                    (xid_of namespace (api_v1.ClaimName claim)) w) as Hf.
      destruct (collab_CreateOrGetByID _ _ w) as [pvcUID w1]; simpl in *.
      destruct (is_empty pvcUID) eqn:Hempty; simpl.
      * eapply wp_mono; [apply IH |].
        intros [pvcs' storage'] w' tr (HR & -> & -> & Hreq & Hlook & Hm & Hc).
        simpl. rewrite Hreq.
        repeat split; auto. by apply (frame_trans Rel F _ w1).
      * wp_step. wp_step.
        pose proof (frame_pvc Rel F pvcUID w1) as Hf'.
        destruct (collab_getPVCFromUID pvcUID w1) as [[pvc|err] w2];
          simpl in *.
        -- eapply wp_mono; [apply IH |].
           intros [pvcs' storage'] w' tr (HR & -> & -> & Hreq & Hlook & Hm & Hc).
           simpl. rewrite Hreq, Hlook, <- app_assoc. simpl.
           repeat split; auto.
           apply (frame_trans Rel F _ w1); [done |].
           by apply (frame_trans Rel F _ w2).
        -- wp_step. wp_step. simpl.
           eapply wp_mono; [apply IH |].
           intros [pvcs' storage'] w' tr (HR & -> & -> & Hreq & Hlook & Hm & Hc).
           simpl. rewrite Hreq, Hlook, <- app_assoc. simpl.
           repeat split; auto.
           apply (frame_trans Rel F _ w1); [done |].
           by apply (frame_trans Rel F _ w2).
    + apply IH.
Qed.

Lemma setPodOwners_body_spec namespace pod owner (w : W) :
  wp (setPodOwners_body namespace pod owner)
     (λ pod' w' tr,
        Rel w w' ∧
        requested tr = option_list (owner_request namespace owner) ∧
        (∀ k, is_owner_kind k = true →
              owner_field k pod' = attached k tr (owner_field k pod)) ∧
        without_owners pod' = without_owners pod ∧
        pvc_lookups tr = [] ∧ capacities tr = [] ∧
        mutations tr = [] ∧ cascades tr = []) w.
Proof.
  unfold setPodOwners_body, owner_request, owner_kind.
  unfold CreateOrGetDeploymentByID, CreateOrGetReplicasetByID,
    CreateOrGetStatefulsetByID, CreateOrGetJobByID, CreateOrGetDaemonsetByID.
  repeat case_match;
    repeat wp_step;
    try (match goal with
         | |- context [collab_CreateOrGetByID ?k ?x ?w] =>
             pose proof (frame_create_or_get Rel F k x w);
             destruct (collab_CreateOrGetByID k x w) as [uid w1]
         end; simpl in *;
         destruct (is_empty uid) eqn:Hempty; simpl);
    repeat wp_step; simpl;
    (split; [first [done | apply (frame_refl Rel F)] |]);
    (split; [done |]);
    (split; [| by destruct pod]);
    intros [] Hk; try discriminate Hk; unfold attached; simpl;
      rewrite ?Hempty; simpl; by destruct pod.
Qed.

Lemma setPodOwners_loop_spec namespace pod owners (w : W) :
  wp (setPodOwners_loop namespace pod owners)
     (λ pod' w' tr,
        Rel w w' ∧
        requested tr = omap (owner_request namespace) owners ∧
        (∀ k, is_owner_kind k = true →
              owner_field k pod' = attached k tr (owner_field k pod)) ∧
        without_owners pod' = without_owners pod ∧
        pvc_lookups tr = [] ∧ capacities tr = [] ∧
        mutations tr = [] ∧ cascades tr = []) w.
Proof.
  revert pod w.
  induction owners as [| owner owners IH]; intros pod w; simpl.
  - wp_step. repeat split; auto. apply (frame_refl Rel F).
  - wp_step.
    eapply wp_mono; [apply setPodOwners_body_spec |].
    intros pod1 w1 t1 (HR1 & Hreq1 & Hown1 & Hrest1 & Hl1 & Hcap1 & Hm1 & Hc1).
    eapply wp_mono; [apply IH |].
    intros pod2 w2 t2 (HR2 & Hreq2 & Hown2 & Hrest2 & Hl2 & Hcap2 & Hm2 & Hc2).
    simpl.
    rewrite requested_app, pvc_lookups_app, capacities_app, mutations_app,
      cascades_app, Hreq1, Hreq2, Hl1, Hl2, Hcap1, Hcap2, Hm1, Hm2, Hc1, Hc2.
    repeat split; auto.
    + by apply (frame_trans Rel F _ w1).
    + by destruct (owner_request namespace owner).
    + intros k Hk. by rewrite attached_app, Hown2, Hown1.
    + congruence.
Qed.


Lemma getPodVolumes_spec k8sPod (w : W) :
  wp (getPodVolumes k8sPod)
     (λ r w' tr,
        Rel w w' ∧
        r.1 = claim_of <$> resolved KPersistentVolumeClaim tr ∧
        r.2 = sum_float64 (capacities tr) ∧
        requested tr =
          (λ xid, (KPersistentVolumeClaim, xid)) <$>
            claims (api_v1.Namespace k8sPod)
                   (api_v1.Volumes (api_v1.Spec k8sPod)) ∧
        pvc_lookups tr = dgraph.UID <$> resolved KPersistentVolumeClaim tr ∧
        mutations tr = [] ∧ cascades tr = []) w.
Proof. apply getPodVolumes_loop_spec. Qed.

Lemma newPod_spec k8sPod (w : W) :
  wp (newPod k8sPod)
     (λ r w' tr,
        ∃ nodeUID err namespaceUID trV trO pod w1,
          tr = [ EvCreateOrGetNode (api_v1.NodeName (api_v1.Spec k8sPod))
                   nodeUID err;
                 EvCreateOrGet KNamespace (api_v1.Namespace k8sPod)
                   namespaceUID ]
               ++ trV ++ trO ++ [EvMutateNode pod dgraph.CREATE r] ∧
          (r, w') = dgraph_MutateNode pod dgraph.CREATE w1 ∧
          Rel w w1 ∧
          without_owners pod =
            createdPod k8sPod
              (match err with
               | None =>
                   Some {| Node_ID :=
                             dgraph.mkID nodeUID
                               (api_v1.NodeName (api_v1.Spec k8sPod)) |}
               | Some _ => None
               end)
              (if is_empty namespaceUID then None
               else Some {| Namespace_ID :=
                              dgraph.mkID namespaceUID
                                (api_v1.Namespace k8sPod) |})
              (claim_of <$> resolved KPersistentVolumeClaim trV)
              (sum_float64 (capacities trV)) ∧
          (∀ k, is_owner_kind k = true →
                owner_field k pod = attached k trO None) ∧
          requested trV =
            (λ xid, (KPersistentVolumeClaim, xid)) <$>
              claims (api_v1.Namespace k8sPod)
                     (api_v1.Volumes (api_v1.Spec k8sPod)) ∧
          pvc_lookups trV =
            dgraph.UID <$> resolved KPersistentVolumeClaim trV ∧
          requested trO =
            omap (owner_request (api_v1.Namespace k8sPod))
                 (api_v1.OwnerReferences k8sPod) ∧
          pvc_lookups trO = [] ∧ capacities trO = [] ∧
          mutations trV = [] ∧ mutations trO = [] ∧
          cascades trV = [] ∧ cascades trO = []) w.
Proof.
  unfold newPod.
  wp_step. wp_step.
  pose proof (frame_node Rel F (api_v1.NodeName (api_v1.Spec k8sPod)) w) as Hn.
  destruct (collab_createOrGetNodeByID _ w) as [[nodeUID err] w1]; simpl in *.
  wp_step. unfold CreateOrGetNamespaceByID. wp_step.
  pose proof (frame_create_or_get Rel F KNamespace
                (api_v1.Namespace k8sPod) w1) as Hns.
  destruct (collab_CreateOrGetByID _ _ w1) as [namespaceUID w2]; simpl in *.
  wp_step.
  eapply wp_mono; [apply getPodVolumes_spec |].
  intros [pvcs storage] w3 trV (HR3 & Hpvcs & Hsto & HreqV & HlookV & HmV & HcV).
  simpl in Hpvcs, Hsto. subst pvcs storage.
  wp_step. unfold setPodOwners.
  eapply wp_mono; [apply setPodOwners_loop_spec |].
  intros pod w4 trO (HR4 & HreqO & Hown & Hrest & HlO & HcapO & HmO & HcO).
  wp_step.
  exists nodeUID, err, namespaceUID, trV, trO, pod, w4.
  split; [done |].
  split; [by destruct (dgraph_MutateNode pod dgraph.CREATE w4) |].
  split.
  { apply (frame_trans Rel F _ w1); [done |].
    apply (frame_trans Rel F _ w2); [done |].
    by apply (frame_trans Rel F _ w3). }
  split.
  { rewrite Hrest. unfold createdPod.
    destruct err; by destruct (is_empty namespaceUID). }
  split.
  { intros k Hk. rewrite (Hown k Hk).
    f_equal. destruct err, (is_empty namespaceUID), k; done. }
  done.
Qed.

Lemma StorePod_mutate_terminate k8sPod xid uid t (w : W) :
  api_v1.DeletionTimestamp k8sPod = Some t →
  time.IsZero t = false →
  StorePod_mutate k8sPod xid uid w =
    let w1 := collab_deleteContainersInTerminatedPod [] t w in
    let r := dgraph_MutateNode (terminatedPod xid uid t) dgraph.UPDATE w1 in
    Some (err_of r.1, r.2,
          [ EvDeleteContainers [] t;
            EvMutateNode (terminatedPod xid uid t) dgraph.UPDATE r.1 ]).
Proof.
  intros Ht Hz.
  unfold StorePod_mutate, bind, deleteContainersInTerminatedPod, MutateNode,
    call, ret.
  rewrite Ht. simpl. rewrite Hz. simpl.
  by destruct (dgraph_MutateNode _ _ _).
Qed.


Lemma edges_nil_r (w : W) destinations : edges w destinations [] = [].
Proof. by destruct destinations. Qed.

Lemma retrievePodsWithCount_loop_spec podsXIDs counts index pods (w : W) :
  retrievePodsWithCountAsEdgeWeightFromPodsXIDs_loop podsXIDs counts index
    pods w =
  if counts_cover w podsXIDs (drop index counts)
  then Some (pods ++ edges w podsXIDs (drop index counts), w,
             destination_lookups w podsXIDs)
  else None.
Proof.
  revert index pods.
  induction podsXIDs as [| podXID podsXIDs IH]; intros index pods; simpl.
  - unfold ret, edges. simpl. by rewrite app_nil_r.
  - assert (counts !! index = head (drop index counts)) as Hhead.
    { by rewrite head_lookup, lookup_drop, Nat.add_0_r. }
    assert (drop (S index) counts = tail (drop index counts)) as Htail.
    { replace (S index) with (index + 1) by lia.
      rewrite <- drop_drop. by destruct (drop index counts). }
    unfold bind at 1. unfold GetUID at 1. unfold query.
    unfold edges, edge_to. fold (edges w).
    destruct (is_empty (dgraph_GetUID podXID IsPod w)) eqn:Hempty.
    + unfold bind at 1. unfold log, emit.
      rewrite IH, Htail.
      destruct (drop index counts) as [| count rest]; simpl.
      * rewrite edges_nil_r. by destruct (counts_cover w podsXIDs []).
      * unfold edge_to. rewrite Hempty.
        by destruct (counts_cover w podsXIDs rest).
    + rewrite Hhead.
      destruct (drop index counts) as [| count rest] eqn:Hdrop; simpl.
      * done.
      * rewrite IH, Htail. simpl.
        unfold edge_to. rewrite Hempty. simpl.
        destruct (counts_cover w podsXIDs rest); [| done].
        by rewrite <- app_assoc.
Qed.

Lemma StorePodsInteraction_resolved sourcePodXID destinations counts (w : W) :
  is_empty (dgraph_GetUID sourcePodXID IsPod w) = false →
  StorePodsInteraction sourcePodXID destinations counts w =
  if counts_cover w destinations counts
  then
    let source :=
      interactionPod (dgraph_GetUID sourcePodXID IsPod w) sourcePodXID
        (edges w destinations counts) in
    let r := dgraph_MutateNode source dgraph.UPDATE w in
    Some (err_of r.1, r.2,
          EvGetUID sourcePodXID IsPod (dgraph_GetUID sourcePodXID IsPod w)
          :: destination_lookups w destinations
          ++ [EvMutateNode source dgraph.UPDATE r.1])
  else None.
Proof.
  intros Hsrc.
  unfold StorePodsInteraction, retrievePodsWithCountAsEdgeWeightFromPodsXIDs.
  unfold bind at 1. unfold GetUID at 1. unfold query. rewrite Hsrc.
  unfold bind at 1. rewrite retrievePodsWithCount_loop_spec, drop_0.
  destruct (counts_cover w destinations counts); [| done].
  unfold bind, MutateNode, call, ret, interactionPod.
  by destruct (dgraph_MutateNode _ _ w) as [r w'].
Qed.

Lemma counts_cover_enough (w : W) destinations (counts : list float64) :
  (length destinations ≤ length counts)%nat →
  counts_cover w destinations counts = true.
Proof.
  revert counts.
  induction destinations as [| xid destinations IH]; intros counts Hlen;
    [done |].
  destruct counts as [| count counts]; simpl in *; [lia |].
  apply IH. lia.
Qed.

Lemma counts_cover_spec (w : W) destinations (counts : list float64) :
  counts_cover w destinations counts = true ↔
  ∀ i xid, destinations !! i = Some xid →
           dgraph_GetUID xid IsPod w ≠ "" → (i < length counts)%nat.
Proof.
  revert counts.
  induction destinations as [| xid destinations IH]; intros counts; simpl.
  - split; [intros _ i xid' Hi; by destruct i | done].
  - rewrite andb_true_iff, IH. split.
    + intros [Hhead Htail] [| i] xid' Hi Hfound; simpl in Hi.
      * injection Hi as <-. destruct counts; simpl; [| lia].
        unfold is_empty in Hhead. by apply String.eqb_eq in Hhead.
      * specialize (Htail i xid' Hi Hfound).
        destruct counts; simpl in *; lia.
    + intros Hall. split.
      * destruct counts as [| count counts]; [| done].
        unfold is_empty. apply String.eqb_eq.
        destruct (decide (dgraph_GetUID xid IsPod w = "")) as [| Hfound];
          [done |].
        specialize (Hall 0%nat xid eq_refl Hfound). simpl in Hall. lia.
      * intros i xid' Hi Hfound.
        specialize (Hall (S i) xid' Hi Hfound).
        destruct counts; simpl in *; lia.
Qed.

Lemma counts_cover_same_length (w : W) destinations
    (counts : list float64) :
  length destinations = length counts →
  counts_cover w destinations counts = true.
Proof. intros Hlen. apply counts_cover_enough. lia. Qed.

Lemma mutations_destination_lookups (w : W) destinations :
  mutations (destination_lookups w destinations) = [].
Proof.
  induction destinations as [| xid destinations IH]; [done |].
  simpl. rewrite mutations_app, IH.
  by destruct (is_empty (dgraph_GetUID xid IsPod w)).
Qed.

Lemma elem_of_edges (w : W) destinations counts pod :
  pod ∈ edges w destinations counts ↔
  ∃ i xid count,
    destinations !! i = Some xid ∧ counts !! i = Some count ∧
    dgraph_GetUID xid IsPod w ≠ "" ∧
    pod = Pod.zero
            <| Pod.set_ID := dgraph.mkID (dgraph_GetUID xid IsPod w) xid |>
            <| Pod.set_Count := count |>.
Proof.
  unfold edges. rewrite list_elem_of_omap. split.
  - intros ([xid count] & Hin & Hedge).
    apply list_elem_of_lookup in Hin as [i Hi].
    apply lookup_zip_Some in Hi as [Hd Hc].
    unfold edge_to in Hedge. simpl in Hedge.
    destruct (is_empty (dgraph_GetUID xid IsPod w)) eqn:Hempty;
      [discriminate |].
    exists i, xid, count. repeat split; auto.
    + unfold is_empty in Hempty. by apply String.eqb_neq.
    + by injection Hedge as <-.
  - intros (i & xid & count & Hd & Hc & Hfound & ->).
    exists (xid, count). split.
    + apply list_elem_of_lookup. exists i. by apply lookup_zip_Some.
    + unfold edge_to. simpl.
      apply String.eqb_neq in Hfound. unfold is_empty. by rewrite Hfound.
Qed.

End Specs.

(** The relation that holds of any two worlds is respected by every
    handler. *)
Lemma Frame_any {W} `{!Collaborators W} : Frame (λ _ _ : W, True).
Proof. by constructor. Qed.

Lemma requested_nil_resolved k tr : requested tr = [] → resolved k tr = [].
Proof.
  induction tr as [| e tr IH]; [done |].
  destruct e; simpl; auto. discriminate.
Qed.

Lemma owner_fields_ext (p p' : Pod.t) :
  without_owners p' = without_owners p →
  (∀ k, is_owner_kind k = true → owner_field k p' = owner_field k p) →
  p' = p.
Proof.
  intros Hrest Hown.
  pose proof (Hown KDeployment eq_refl) as H1.
  pose proof (Hown KReplicaset eq_refl) as H2.
  pose proof (Hown KStatefulset eq_refl) as H3.
  pose proof (Hown KJob eq_refl) as H4.
  pose proof (Hown KDaemonset eq_refl) as H5.
  destruct p, p'; simpl in *.
  repeat match goal with
         | o : option Deployment |- _ => destruct o as [[?]|]
         | o : option Replicaset |- _ => destruct o as [[?]|]
         | o : option Statefulset |- _ => destruct o as [[?]|]
         | o : option Job |- _ => destruct o as [[?]|]
         | o : option Daemonset |- _ => destruct o as [[?]|]
         end; simpl in *; try discriminate;
    injection Hrest as -> -> -> -> -> -> -> -> -> -> -> -> -> -> -> -> -> -> ->;
    congruence.
Qed.

Lemma not_requested_resolved k tr : requested_of k tr = [] → resolved k tr = [].
Proof.
  unfold requested_of.
  induction tr as [| e tr IH]; [done |].
  destruct e; simpl; auto.
  rewrite filter_cons. simpl.
  case_decide as Hk; simpl; [discriminate |].
  intros Hnone. rewrite bool_decide_eq_false_2 by done. simpl. auto.
Qed.

Lemma requested_of_app k t1 t2 :
  requested_of k (t1 ++ t2) = requested_of k t1 ++ requested_of k t2.
Proof.
  unfold requested_of. by rewrite requested_app, filter_app, fmap_app.
Qed.

Lemma owners_request_no_claim namespace owners :
  snd <$> filter (λ kx, kx.1 = KPersistentVolumeClaim)
            (omap (owner_request namespace) owners) = [].
Proof.
  induction owners as [| owner owners IH]; [done |].
  simpl. unfold owner_request at 1.
  destruct (owner_kind (api_v1.Kind owner)) as [k |] eqn:Hk; simpl;
    [| exact IH].
  rewrite filter_cons_False; [exact IH |].
  simpl. intros ->. unfold owner_kind in Hk.
  repeat case_match; discriminate.
Qed.

Lemma claims_requested (xids : list string) :
  snd <$> filter (λ kx, kx.1 = KPersistentVolumeClaim)
            ((λ xid, (KPersistentVolumeClaim, xid)) <$> xids) = xids.
Proof.
  induction xids as [| xid xids IH]; [done |].
  rewrite fmap_cons, filter_cons_True by done.
  rewrite fmap_cons. simpl. by rewrite IH.
Qed.

Section Unfoldings.

Context {W : Type} `{!GraphStore W, !Collaborators W}.

(** [StorePod] when the lookup finds the pod. *)
Lemma StorePod_resolved k8sPod (w : W) :
  let xid := xid_of (api_v1.Namespace k8sPod) (api_v1.Pod_Name k8sPod) in
  let uid := dgraph_GetUID xid IsPod w in
  is_empty uid = false →
  StorePod k8sPod w =
    match StorePod_mutate k8sPod xid uid w with
    | Some (e, w', tr) => Some (e, w', EvGetUID xid IsPod uid :: tr)
    | None => None
    end.
Proof.
  intros xid uid Hfound.
  unfold StorePod, bind, GetUID, query. fold xid. fold uid. rewrite Hfound.
  by destruct (StorePod_mutate k8sPod xid uid w) as [[[e w'] tr]|].
Qed.

(** [StorePod] when it does not. *)
Lemma StorePod_absent k8sPod (w : W) :
  let xid := xid_of (api_v1.Namespace k8sPod) (api_v1.Pod_Name k8sPod) in
  let uid := dgraph_GetUID xid IsPod w in
  is_empty uid = true →
  StorePod k8sPod w =
    match newPod k8sPod w with
    | None => None
    | Some (inr err, w1, t1) =>
        Some (Some err, w1, EvGetUID xid IsPod uid :: t1)
    | Some (inl assigned, w1, t1) =>
        match StorePod_mutate k8sPod xid
                (dgraph.at_key (dgraph.Uids assigned) "blank-0") w1 with
        | Some (e, w', t2) =>
            Some (e, w',
                  EvGetUID xid IsPod uid
                  :: t1 ++ EvLog Info ("Pod with xid: (" +:+ xid
                                       +:+ ") persisted in dgraph") :: t2)
        | None => None
        end
    end.
Proof.
  intros xid uid Habsent.
  unfold StorePod. fold xid. unfold bind at 1. unfold GetUID, query.
  fold uid. rewrite Habsent.
  unfold bind at 1.
  destruct (newPod k8sPod w) as [[[[assigned|err] w1] t1]|]; try done.
  - unfold bind, log, emit.
    by destruct (StorePod_mutate _ _ _ w1) as [[[e w'] t2]|].
  - simpl. by rewrite app_nil_r.
Qed.

End Unfoldings.

(** ** The pod store *)
Section StoreFacts.

Context {R : Type} `{!Collaborators R}.

Implicit Types (m : gmap string Pod.t) (w : Store.World R).

Lemma fresh_uid_nonempty m : Store.fresh_uid m ≠ "".
Proof.
  unfold Store.fresh_uid. intros Heq.
  pose proof (is_fresh ({[ "" ]} ∪ dom m)) as Hfresh.
  rewrite Heq in Hfresh. set_solver.
Qed.

Lemma fresh_uid_free m : m !! Store.fresh_uid m = None.
Proof.
  apply not_elem_of_dom. unfold Store.fresh_uid.
  pose proof (is_fresh ({[ "" ]} ∪ dom m)) as Hfresh. set_solver.
Qed.



Lemma lookup_found xid m uid :
  Store.lookup xid IsPod m = uid → uid ≠ "" →
  ∃ p, m !! uid = Some p ∧ Store.is_pod_with_xid xid p = true.
Proof.
  unfold Store.lookup. rewrite String.eqb_refl.
  destruct (map_to_list (Store.pod_entities xid m)) as [| [u p] l] eqn:Hl;
    [congruence |].
  intros -> _.
  assert ((uid, p) ∈ map_to_list (Store.pod_entities xid m)) as Hin
    by (rewrite Hl; set_solver).
  apply elem_of_map_to_list in Hin.
  apply map_lookup_filter_Some in Hin as [Hm Hp]. eauto.
Qed.

Lemma Frame_same_pods : Frame (W := Store.World R) Store.same_pods.
Proof.
  constructor; unfold Store.same_pods; simpl.
  - done.
  - intros w1 w2 w3 [-> ->] [-> ->]. done.
  - intros xid w. unfold Store.on_rest. by destruct (collab_createOrGetNodeByID _ _).
  - intros k xid w. unfold Store.on_rest. by destruct (collab_CreateOrGetByID _ _ _).
  - intros uid w. unfold Store.on_rest. by destruct (collab_getPVCFromUID _ _).
  - intros k8sPod podUID namespaceUID w. unfold Store.on_rest.
    by destruct (collab_StoreAndRetrieveContainersAndMetrics _ _ _ _).
  - done.
  - intros key value w. unfold Store.on_rest. by destruct (collab_GetLabel _ _ _).
Qed.

Lemma over_edges_nil {A} (target : A → string) (old : list A) :
  Store.over_edges target old [] = old.
Proof.
  unfold Store.over_edges. rewrite app_nil_r.
  induction old as [| a old IH]; [done |].
  rewrite filter_cons_True; [by rewrite IH |].
  simpl. apply not_elem_of_nil.
Qed.

Lemma over_string_same (s : string) : Store.over_string s s = s.
Proof. unfold Store.over_string. by destruct (String.eqb s ""). Qed.

Lemma over_string_new (old new : string) :
  new ≠ "" → Store.over_string old new = new.
Proof.
  intros Hnew. unfold Store.over_string.
  apply String.eqb_neq in Hnew. by rewrite Hnew.
Qed.

(** An update with the terminate-phase entity changes the end time and
    nothing else. *)
Lemma merge_terminated (P : Pod.t) xid uid t :
  dgraph.UID (Pod.ID P) = uid →
  dgraph.Xid (Pod.ID P) = xid →
  Format_RFC3339 (W := Store.World R) t ≠ "" →
  Store.merge P (terminatedPod (W := Store.World R) xid uid t) =
    P <| Pod.set_EndTime := Format_RFC3339 (W := Store.World R) t |>.
Proof.
  intros Huid Hxid Hfmt.
  destruct P as [[u x] ? ? ? ? ? ? ? ? ? ? ? ? ? ? ? ? ? ? ? ? ? ? ?].
  simpl in *. subst u x.
  unfold Store.merge, terminatedPod. simpl.
  rewrite !over_edges_nil, !over_string_same, orb_false_r.
  by rewrite (over_string_new _ _ Hfmt).
Qed.







Lemma mutate_create_accepted w pod :
  Store.accepts w = true →
  Store.mutate pod dgraph.CREATE w =
    (inl (dgraph.mkAssigned {[ "blank-0" := Store.fresh_uid (Store.pods w) ]}),
     Store.mkWorld
       (<[ Store.fresh_uid (Store.pods w) :=
             pod <| Pod.set_ID :=
                      dgraph.mkID (Store.fresh_uid (Store.pods w))
                                  (dgraph.Xid (Pod.ID pod)) |> ]>
          (Store.pods w))
       (tail (Store.outcomes w)) (Store.rest w)).
Proof.
  unfold Store.accepts, Store.mutate.
  by destruct (Store.outcomes w) as [| [err |] rest_outcomes].
Qed.

Lemma at_key_blank uid :
  dgraph.at_key {[ "blank-0" := uid ]} "blank-0" = uid.
Proof. unfold dgraph.at_key. by rewrite lookup_singleton_eq. Qed.

Lemma mutate_create_rejected w pod :
  Store.accepts w = false →
  ∃ err w', Store.mutate pod dgraph.CREATE w = (inr err, w') ∧
            Store.pods w' = Store.pods w.
Proof.
  unfold Store.accepts, Store.mutate.
  destruct (Store.outcomes w) as [| [err |] rest_outcomes]; try discriminate.
  intros _. by eexists _, _.
Qed.

(** The terminate-phase update, on a stored pod: when the store accepts it,
    the stored entity gets the end time and is otherwise as before; when
    the store rejects it, nothing changes. *)
Lemma mutate_update_terminated w P xid uid t :
  Store.pods w !! uid = Some P →
  dgraph.UID (Pod.ID P) = uid →
  dgraph.Xid (Pod.ID P) = xid →
  Format_RFC3339 (W := Store.World R) t ≠ "" →
  Store.pods
    (Store.mutate (terminatedPod (W := Store.World R) xid uid t)
       dgraph.UPDATE w).2 =
  match (Store.mutate (terminatedPod (W := Store.World R) xid uid t)
           dgraph.UPDATE w).1 with
  | inl _ =>
      <[ uid := P <| Pod.set_EndTime :=
                       Format_RFC3339 (W := Store.World R) t |> ]>
        (Store.pods w)
  | inr _ => Store.pods w
  end.
Proof.
  intros HP Huid Hxid Hfmt.
  unfold Store.mutate.
  destruct (Store.outcomes w) as [| [err |] rest_outcomes]; simpl;
    rewrite ?HP; simpl; by rewrite ?(merge_terminated P xid uid t).
Qed.

(** The store invariant: it holds of the empty store and every mutation
    keeps it. *)
Lemma wf_empty : Store.wf ∅.
Proof. apply map_Forall_empty. Qed.

Lemma wf_mutate w pod mode :
  Store.wf (Store.pods w) → Store.wf (Store.pods (Store.mutate pod mode w).2).
Proof.
  intros Hwf. unfold Store.mutate.
  assert (Store.wf (Store.apply pod mode (Store.pods w)).2) as Happly.
  { destruct mode; simpl; apply map_Forall_insert_2; try done.
    - by destruct pod.
    - unfold Store.merge. simpl. unfold Store.over_string.
      destruct (String.eqb (dgraph.UID (Pod.ID pod)) "") eqn:Hempty; [| done].
      apply String.eqb_eq in Hempty. rewrite Hempty.
      destruct (Store.pods w !! "") as [old |] eqn:Hold; simpl; [| done].
      by apply (Hwf "" old). }
  destruct (Store.apply pod mode (Store.pods w)) as [assigned m'].
  by destruct (Store.outcomes w) as [| [err |] rest_outcomes].
Qed.

End StoreFacts.

(** * The claims *)
Section Claims.

Context {W : Type} `{!GraphStore W, !Collaborators W}.

(** C3: when the source external id does not resolve, StorePodsInteraction
    returns the "source pod ... is not persisted yet" error at once: the
    world is left as it was, and the only calls made are the lookup of the
    source and one log line, so no mutation is issued and nothing is
    created. *)
Theorem StorePodsInteraction_source_absent
    (sourcePodXID : string) (destinationPodsXIDs : list string)
    (counts : list float64) (w : W) :
  dgraph_GetUID sourcePodXID IsPod w = "" →
  StorePodsInteraction sourcePodXID destinationPodsXIDs counts w =
    Some (Some ("source pod: " +:+ sourcePodXID +:+ " is not persisted yet"),
          w,
          [ EvGetUID sourcePodXID IsPod "";
            EvLog Info ("Source Pod " +:+ sourcePodXID
                        +:+ " is not persisted yet.") ]).
Proof.
  intros Habsent.
  unfold StorePodsInteraction, bind, GetUID, query.
  rewrite Habsent. reflexivity.
Qed.

(** C5, as the code has it: setPodOwners never fails.  It makes one
    create-or-get call for each owner reference of a known kind
    (Deployment, ReplicaSet, StatefulSet, Job, DaemonSet), for the external
    id namespace:ownerName, and none for a reference of another kind.
    Afterwards the owner field of each kind holds the identity of the last
    reference of that kind whose call returned a non-empty id (internal id
    as returned, external id namespace:ownerName), and is unchanged when
    there is none: a later reference of a kind replaces an earlier one.  No
    other field of the pod changes, and a list of references of other kinds
    leaves the pod as it was. *)
Theorem setPodOwners_attaches (pod : Pod.t) (k8sPod : api_v1.Pod) (w : W) :
  ∃ pod' w' tr,
    setPodOwners pod k8sPod w = Some (pod', w', tr) ∧
    requested tr =
      omap (owner_request (api_v1.Namespace k8sPod))
           (api_v1.OwnerReferences k8sPod) ∧
    (∀ k, is_owner_kind k = true →
          owner_field k pod' = attached k tr (owner_field k pod)) ∧
    without_owners pod' = without_owners pod ∧
    ((∀ owner, owner ∈ api_v1.OwnerReferences k8sPod →
               owner_kind (api_v1.Kind owner) = None) →
     pod' = pod).
Proof.
  pose proof (setPodOwners_loop_spec _ Frame_any (api_v1.Namespace k8sPod) pod
                (api_v1.OwnerReferences k8sPod) w) as Hspec.
  apply wp_run in Hspec
    as (pod' & w' & tr & Hrun & _ & Hreq & Hown & Hrest & _).
  exists pod', w', tr. repeat split; auto.
  intros Hunknown. apply owner_fields_ext; [done |].
  intros k Hk. rewrite (Hown k Hk). unfold attached.
  rewrite (requested_nil_resolved k tr); [done |].
  rewrite Hreq. clear -Hunknown.
  induction (api_v1.OwnerReferences k8sPod) as [| owner owners IH]; [done |].
  simpl. unfold owner_request at 1.
  rewrite (Hunknown owner) by set_solver. simpl.
  apply IH. intros o Ho. apply Hunknown. set_solver.
Qed.

(** C10: getPodVolumes never fails.  It asks for the claim of every volume
    that has one; the relation list holds one relation for each of these
    calls that returned a non-empty id, whatever reading the claim back
    gives, and none for a call that returned the empty id.  Every claim
    with an id is read back, and the storage is the sum of the capacities
    of those read back without error: one whose read fails adds nothing. *)
Theorem getPodVolumes_relations (k8sPod : api_v1.Pod) (w : W) :
  ∃ podVolumes storage w' tr,
    getPodVolumes k8sPod w = Some ((podVolumes, storage), w', tr) ∧
    requested tr =
      (λ xid, (KPersistentVolumeClaim, xid)) <$>
        claims (api_v1.Namespace k8sPod)
               (api_v1.Volumes (api_v1.Spec k8sPod)) ∧
    podVolumes = claim_of <$> resolved KPersistentVolumeClaim tr ∧
    pvc_lookups tr = dgraph.UID <$> resolved KPersistentVolumeClaim tr ∧
    storage = sum_float64 (capacities tr).
Proof.
  pose proof (getPodVolumes_spec _ Frame_any k8sPod w) as Hspec.
  apply wp_run in Hspec
    as ([pvcs storage] & w' & tr & Hrun & _ & Hp & Hs & Hreq & Hlook & _).
  exists pvcs, storage, w', tr. simpl in *. by repeat split.
Qed.

(** C6: newPod never fails before its mutation, and sends exactly one
    entity to the store, by CREATE.  It asks for the claim of every volume
    that has one and reads back every claim that came back with an id; the
    storage request of the entity sent is the sum of the capacities of the
    claims read back without error, so a claim that does not resolve adds
    nothing and raises no error: the result of newPod is the result of that
    one mutation. *)
Theorem newPod_storage_request (k8sPod : api_v1.Pod) (w : W) :
  ∃ pod r w1 w' tr,
    newPod k8sPod w = Some (r, w', tr) ∧
    mutations tr = [(pod, dgraph.CREATE)] ∧
    last tr = Some (EvMutateNode pod dgraph.CREATE r) ∧
    (r, w') = dgraph_MutateNode pod dgraph.CREATE w1 ∧
    requested_of KPersistentVolumeClaim tr =
      claims (api_v1.Namespace k8sPod) (api_v1.Volumes (api_v1.Spec k8sPod)) ∧
    pvc_lookups tr = dgraph.UID <$> resolved KPersistentVolumeClaim tr ∧
    Pod.StorageRequest pod = sum_float64 (capacities tr).
Proof.
  pose proof (newPod_spec _ Frame_any k8sPod w) as Hspec.
  apply wp_run in Hspec
    as (r & w' & tr & Hrun & nodeUID & err & namespaceUID & trV & trO & pod
        & w1 & -> & Hmut & _ & Hrest & _ & HreqV & HlookV & HreqO & HlookO
        & HcapO & HmV & HmO & _).
  assert (resolved KPersistentVolumeClaim trO = []) as HresO.
  { apply not_requested_resolved. unfold requested_of.
    rewrite HreqO. apply owners_request_no_claim. }
  exists pod, r, w1, w'. eexists. split; [exact Hrun |].
  split. { simpl. by rewrite !mutations_app, HmV, HmO. }
  split. { by rewrite !app_assoc, last_snoc. }
  split; [done |].
  split.
  { assert (requested_of KPersistentVolumeClaim trV =
              claims (api_v1.Namespace k8sPod)
                     (api_v1.Volumes (api_v1.Spec k8sPod))) as HV.
    { unfold requested_of. rewrite HreqV. apply claims_requested. }
    assert (requested_of KPersistentVolumeClaim trO = []) as HO.
    { unfold requested_of. rewrite HreqO. apply owners_request_no_claim. }
    change ([?a; ?b] ++ ?l) with ([a] ++ [b] ++ l).
    rewrite !requested_of_app, HV, HO.
    change (claims ?n ?v ++ [] ++ []) with (claims n v ++ []).
    by rewrite app_nil_r. }
  split.
  { simpl. rewrite !pvc_lookups_app, !resolved_app, HlookV, HlookO, HresO.
    simpl. by rewrite !app_nil_r. }
  assert (Pod.StorageRequest pod = Pod.StorageRequest (without_owners pod))
    as -> by by destruct pod.
  rewrite Hrest. simpl. by rewrite !capacities_app, HcapO, app_nil_r.
Qed.

(** C9: newPod always reaches its CREATE mutation and returns what that
    mutation returns, so it reports an error only when the mutation does.
    Before it, newPod calls the node, namespace, volume and owner handlers
    and issues no mutation.  The entity has the node relation only if the
    node handler reported no error, the namespace relation only if the
    namespace came back with an id, one volume relation per claim that came
    back with an id, and in each owner field the last owner of that kind
    that came back with an id, if any. *)
Theorem newPod_fails_only_on_create (k8sPod : api_v1.Pod) (w : W) :
  ∃ nodeUID err namespaceUID trV trO pod r w1 w',
    let tr0 :=
      [ EvCreateOrGetNode (api_v1.NodeName (api_v1.Spec k8sPod)) nodeUID err;
        EvCreateOrGet KNamespace (api_v1.Namespace k8sPod) namespaceUID ]
      ++ trV ++ trO in
    newPod k8sPod w =
      Some (r, w', tr0 ++ [EvMutateNode pod dgraph.CREATE r]) ∧
    (r, w') = dgraph_MutateNode pod dgraph.CREATE w1 ∧
    mutations tr0 = [] ∧
    requested trV =
      (λ xid, (KPersistentVolumeClaim, xid)) <$>
        claims (api_v1.Namespace k8sPod)
               (api_v1.Volumes (api_v1.Spec k8sPod)) ∧
    requested trO =
      omap (owner_request (api_v1.Namespace k8sPod))
           (api_v1.OwnerReferences k8sPod) ∧
    Pod.Node pod =
      match err with
      | None =>
          Some {| Node_ID :=
                    dgraph.mkID nodeUID
                      (api_v1.NodeName (api_v1.Spec k8sPod)) |}
      | Some _ => None
      end ∧
    Pod.Namespace pod =
      (if is_empty namespaceUID then None
       else Some {| Namespace_ID :=
                      dgraph.mkID namespaceUID (api_v1.Namespace k8sPod) |}) ∧
    Pod.Pvcs pod = claim_of <$> resolved KPersistentVolumeClaim trV ∧
    (∀ k, is_owner_kind k = true →
          owner_field k pod = last (resolved k trO)).
Proof.
  pose proof (newPod_spec _ Frame_any k8sPod w) as Hspec.
  apply wp_run in Hspec
    as (r & w' & tr & Hrun & nodeUID & err & namespaceUID & trV & trO & pod
        & w1 & -> & Hmut & _ & Hrest & Hown & HreqV & HlookV & HreqO & HlookO
        & HcapO & HmV & HmO & _).
  exists nodeUID, err, namespaceUID, trV, trO, pod, r, w1, w'. simpl.
  split. { rewrite Hrun. by rewrite <- !app_assoc. }
  split; [done |].
  split. { by rewrite mutations_app, HmV, HmO. }
  split; [done |]. split; [done |].
  assert (Pod.Node pod = Pod.Node (without_owners pod) ∧
          Pod.Namespace pod = Pod.Namespace (without_owners pod) ∧
          Pod.Pvcs pod = Pod.Pvcs (without_owners pod))
    as (-> & -> & ->) by by destruct pod.
  rewrite Hrest. repeat split.
  intros k Hk. rewrite (Hown k Hk). unfold attached.
  by destruct (last (resolved k trO)).
Qed.

(** C8: on a StorePod call for a pod that carries a deletion marker, the
    termination cascade is handed the empty container list: when the call
    reaches the cascade it is invoked once, with no containers; the only
    way not to reach it is that the pod had to be created and the CREATE
    mutation failed, and then the cascade is not invoked at all. *)
Theorem StorePod_terminate_cascade_empty
    (k8sPod : api_v1.Pod) (t : time.Time) (w : W) :
  api_v1.DeletionTimestamp k8sPod = Some t →
  time.IsZero t = false →
  ∃ e w' tr,
    StorePod k8sPod w = Some (e, w', tr) ∧
    (cascades tr = [ [] ] ∨
     cascades tr = [] ∧
     ∃ pod err, last tr = Some (EvMutateNode pod dgraph.CREATE (inr err)) ∧
                e = Some err).
Proof.
  intros Ht Hz.
  set (xid := xid_of (api_v1.Namespace k8sPod) (api_v1.Pod_Name k8sPod)).
  destruct (is_empty (dgraph_GetUID xid IsPod w)) eqn:Hlookup.
  - rewrite (StorePod_absent k8sPod w Hlookup).
    pose proof (newPod_spec _ Frame_any k8sPod w) as Hspec.
    apply wp_run in Hspec
      as (r & w1 & t1 & -> & nodeUID & err & namespaceUID & trV & trO & pod
          & w0 & -> & Hmut & _ & _ & _ & _ & _ & _ & _ & _ & _ & _ & HcV
          & HcO).
    destruct r as [assigned | err'].
    + rewrite (StorePod_mutate_terminate k8sPod _ _ t w1 Ht Hz). simpl.
      eexists _, _, _. split; [reflexivity |]. left.
      simpl. by rewrite !cascades_app, HcV, HcO.
    + eexists _, _, _. split; [reflexivity |]. right.
      split.
      * simpl. by rewrite !cascades_app, HcV, HcO.
      * exists pod, err'. split; [| done].
        simpl. rewrite !app_assoc, !app_comm_cons. apply last_snoc.
  - rewrite (StorePod_resolved k8sPod w Hlookup).
    rewrite (StorePod_mutate_terminate k8sPod _ _ t w Ht Hz). simpl.
    eexists _, _, _. split; [reflexivity |]. by left.
Qed.

(** C4: with a source that resolves and as many counts as destinations,
    StorePodsInteraction looks every destination up and sends one UPDATE
    for the source whose edge list holds, in order, one edge for each
    destination that resolves, weighted with the count at the same index,
    and nothing for a destination that does not resolve.  The error it
    returns is the one of that mutation: a destination that does not
    resolve never makes the call fail. *)
Theorem StorePodsInteraction_edges
    (sourcePodXID : string) (destinationPodsXIDs : list string)
    (counts : list float64) (w : W) :
  length destinationPodsXIDs = length counts →
  dgraph_GetUID sourcePodXID IsPod w ≠ "" →
  ∃ r w' tr,
    let uid := dgraph_GetUID sourcePodXID IsPod w in
    let pods := edges w destinationPodsXIDs counts in
    StorePodsInteraction sourcePodXID destinationPodsXIDs counts w =
      Some (err_of r, w', tr) ∧
    (r, w') =
      dgraph_MutateNode (interactionPod uid sourcePodXID pods) dgraph.UPDATE w ∧
    mutations tr = [(interactionPod uid sourcePodXID pods, dgraph.UPDATE)] ∧
    ∀ pod, pod ∈ pods ↔
      ∃ i xid count,
        destinationPodsXIDs !! i = Some xid ∧ counts !! i = Some count ∧
        dgraph_GetUID xid IsPod w ≠ "" ∧
        pod = Pod.zero
                <| Pod.set_ID := dgraph.mkID (dgraph_GetUID xid IsPod w) xid |>
                <| Pod.set_Count := count |>.
Proof.
  intros Hlen Hsrc.
  assert (is_empty (dgraph_GetUID sourcePodXID IsPod w) = false) as Hfound.
  { unfold is_empty. by apply String.eqb_neq. }
  rewrite (StorePodsInteraction_resolved sourcePodXID destinationPodsXIDs
             counts w Hfound).
  rewrite counts_cover_same_length by done.
  cbv zeta.
  destruct (dgraph_MutateNode
              (interactionPod (dgraph_GetUID sourcePodXID IsPod w) sourcePodXID
                 (edges w destinationPodsXIDs counts))
              dgraph.UPDATE w) as [r w'] eqn:Hmut.
  exists r, w'. eexists.
  split; [reflexivity |]. split; [done |].
  split.
  { cbn [mutations]. by rewrite mutations_app, mutations_destination_lookups. }
  apply elem_of_edges.
Qed.

(** With a source that resolves, a destination that resolves and has no
    count at its index makes the call panic before any mutation. *)
Lemma StorePodsInteraction_short_counts
    (sourcePodXID : string) (destinationPodsXIDs : list string)
    (counts : list float64) (w : W) :
  dgraph_GetUID sourcePodXID IsPod w ≠ "" →
  counts_cover w destinationPodsXIDs counts = false →
  StorePodsInteraction sourcePodXID destinationPodsXIDs counts w = None.
Proof.
  intros Hsrc Hshort.
  assert (is_empty (dgraph_GetUID sourcePodXID IsPod w) = false) as Hfound.
  { unfold is_empty. by apply String.eqb_neq. }
  rewrite (StorePodsInteraction_resolved sourcePodXID destinationPodsXIDs
             counts w Hfound).
  by rewrite Hshort.
Qed.

(** C2, as the code has it: StorePodsInteraction does not compare the two
    lengths and has no validation error.  With a source that resolves, if
    every destination that resolves has a count at its index, which is so
    whenever there are at least as many counts as destinations, the call
    goes through as for equal lengths: destinations and counts are paired
    index by index, counts beyond the last destination are left unused,
    and one UPDATE with those edges is issued, whose error is the one
    returned. *)
Theorem StorePodsInteraction_unequal_lengths
    (sourcePodXID : string) (destinationPodsXIDs : list string)
    (counts : list float64) (w : W) :
  dgraph_GetUID sourcePodXID IsPod w ≠ "" →
  let uid := dgraph_GetUID sourcePodXID IsPod w in
  let source :=
    interactionPod uid sourcePodXID (edges w destinationPodsXIDs counts) in
  (counts_cover w destinationPodsXIDs counts = true →
   ∃ r w' tr,
     StorePodsInteraction sourcePodXID destinationPodsXIDs counts w =
       Some (err_of r, w', tr) ∧
     (r, w') = dgraph_MutateNode source dgraph.UPDATE w ∧
     mutations tr = [(source, dgraph.UPDATE)]) ∧
  ((length destinationPodsXIDs ≤ length counts)%nat →
   counts_cover w destinationPodsXIDs counts = true).
Proof.
  intros Hsrc. cbv zeta.
  assert (is_empty (dgraph_GetUID sourcePodXID IsPod w) = false) as Hfound.
  { unfold is_empty. by apply String.eqb_neq. }
  rewrite (StorePodsInteraction_resolved sourcePodXID destinationPodsXIDs
             counts w Hfound).
  split.
  - intros ->. cbv zeta.
    destruct (dgraph_MutateNode
                (interactionPod (dgraph_GetUID sourcePodXID IsPod w)
                   sourcePodXID (edges w destinationPodsXIDs counts))
                dgraph.UPDATE w) as [r w'] eqn:Hmut.
    exists r, w'. eexists.
    split; [reflexivity |]. split; [done |].
    cbn [mutations]. by rewrite mutations_app, mutations_destination_lookups.
  - apply counts_cover_enough.
Qed.

End Claims.

Section StoreClaims.

Context {R : Type} `{!Collaborators R}.


(** C7: take a pod that carries a deletion marker, in a store whose
    entities record their own internal ids.  Unless the pod had to be
    created and the CREATE was rejected, the StorePod call ends with one
    UPDATE whose entity holds the external id, the internal id (the one
    the lookup found, or the one just assigned) and the end time formatted
    from the deletion timestamp, every other field being at its zero
    value.  When the store accepts that update, the stored pod is as it
    was before it except for the end time: name, external id, internal id
    and every other field are unchanged; when the store rejects it the pods
    are as before. *)
Theorem StorePod_terminate_keeps_identity
    (k8sPod : api_v1.Pod) (t : time.Time) (w : Store.World R) :
  api_v1.DeletionTimestamp k8sPod = Some t →
  time.IsZero t = false →
  Format_RFC3339 (W := R) t ≠ "" →
  Store.wf (Store.pods w) →
  ∃ e w' tr,
    StorePod k8sPod w = Some (e, w', tr) ∧
    ((∃ pod err,
        last tr = Some (EvMutateNode pod dgraph.CREATE (inr err)) ∧
        e = Some err ∧ Store.pods w' = Store.pods w)
     ∨
     ∃ uid P before r,
       uid ≠ "" ∧
       (before = Store.pods w ∧
        Store.lookup (pod_xid k8sPod) IsPod (Store.pods w) = uid
        ∨
        before = <[ uid := P ]> (Store.pods w) ∧
        Store.lookup (pod_xid k8sPod) IsPod (Store.pods w) = "" ∧
        Store.pods w !! uid = None) ∧
       before !! uid = Some P ∧
       Pod.ID P = dgraph.mkID uid (pod_xid k8sPod) ∧
       last tr =
         Some (EvMutateNode
                 (Pod.zero
                    <| Pod.set_ID := dgraph.mkID uid (pod_xid k8sPod) |>
                    <| Pod.set_EndTime := Format_RFC3339 (W := R) t |>)
                 dgraph.UPDATE r) ∧
       e = err_of r ∧
       Store.pods w' =
         match r with
         | inl _ =>
             <[ uid := P <| Pod.set_EndTime := Format_RFC3339 (W := R) t |> ]>
               before
         | inr _ => before
         end).
Proof.
  intros Ht Hz Hfmt Hwf.
  set (xid := pod_xid k8sPod) in *.
  destruct (is_empty (dgraph_GetUID xid IsPod w)) eqn:Hlookup.
  - (* not persisted yet: create, then terminate *)
    pose proof (StorePod_absent k8sPod w Hlookup) as Hcall.
    cbv zeta in Hcall.
    pose proof (newPod_spec _ Frame_same_pods k8sPod w) as Hnew.
    apply wp_run in Hnew
      as (r & wc & tc & Hnew & nodeUID & err & namespaceUID & trV & trO & pod
          & w0 & -> & Hmut & [Hpods Hout] & Hrest & _).
    rewrite Hnew in Hcall. clear Hnew.
    assert (dgraph.Xid (Pod.ID pod) = xid) as Hxid.
    { assert (Pod.ID pod = Pod.ID (without_owners pod)) as ->
        by by destruct pod.
      by rewrite Hrest. }
    simpl in Hmut.
    destruct (Store.accepts w0) eqn:Hacc.
    + rewrite mutate_create_accepted in Hmut by done.
      rewrite Hpods, Hxid in Hmut.
      set (uid := Store.fresh_uid (Store.pods w)) in *.
      injection Hmut as -> ->.
      cbv match beta in Hcall. cbn [dgraph.Uids] in Hcall.
      rewrite at_key_blank in Hcall.
      set (P := pod <| Pod.set_ID := dgraph.mkID uid xid |>) in *.
      set (wc := Store.mkWorld (<[uid:=P]> (Store.pods w)) _ _) in *.
      fold (pod_xid k8sPod) in Hcall. fold xid in Hcall.
      rewrite (StorePod_mutate_terminate k8sPod xid uid t wc Ht Hz) in Hcall.
      cbv beta iota zeta in Hcall.
      set (w1 := collab_deleteContainersInTerminatedPod [] t wc) in *.
      assert (Pod.ID P = dgraph.mkID uid xid) as HidP
        by (unfold P; by destruct pod).
      assert (Store.pods w1 !! uid = Some P) as HP
        by (simpl; apply lookup_insert_eq).
      pose proof (mutate_update_terminated w1 P xid uid t HP
                    ltac:(by rewrite HidP) ltac:(by rewrite HidP) Hfmt)
        as Hupd.
      eexists _, _, _. split; [exact Hcall |]. right.
      exists uid, P, (<[uid:=P]> (Store.pods w)). eexists.
      split; [apply fresh_uid_nonempty |].
      split.
      { right. split; [done |].
        split; [| apply fresh_uid_free].
        simpl in Hlookup. unfold is_empty in Hlookup.
        by apply String.eqb_eq in Hlookup. }
      split; [apply lookup_insert_eq |].
      split; [done |].
      split.
      { cbn [app]. rewrite !app_comm_cons.
        change (?l ++ ?a :: [?b; ?c]) with (l ++ [a; b] ++ [c]).
        rewrite !app_assoc. apply last_snoc. }
      split; [done |].
      exact Hupd.
    + destruct (mutate_create_rejected w0 pod Hacc) as (err' & w' & Hrej & Hsame).
      rewrite Hrej in Hmut. injection Hmut as -> ->.
      eexists _, _, _. split; [exact Hcall |]. left.
      exists pod, err'. split; [| split; [done | by rewrite Hsame]].
      simpl. rewrite !app_assoc, !app_comm_cons. apply last_snoc.
  - (* persisted: terminate *)
    pose proof (StorePod_resolved k8sPod w Hlookup) as Hcall.
    cbv zeta in Hcall.
    fold (pod_xid k8sPod) in Hcall. fold xid in Hcall.
    set (uid := dgraph_GetUID xid IsPod w) in *.
    assert (uid ≠ "") as Huid.
    { unfold is_empty in Hlookup. by apply String.eqb_neq. }
    destruct (lookup_found xid (Store.pods w) uid eq_refl Huid)
      as (P & HP & Hpod).
    assert (Pod.ID P = dgraph.mkID uid xid) as HidP.
    { unfold Store.is_pod_with_xid in Hpod.
      apply andb_true_iff in Hpod as [_ Hxid]. apply String.eqb_eq in Hxid.
      pose proof (Hwf uid P HP) as HuidP. simpl in HuidP.
      rewrite <- Hxid, <- HuidP. by destruct (Pod.ID P). }
    rewrite (StorePod_mutate_terminate k8sPod xid uid t w Ht Hz) in Hcall.
    cbv beta iota zeta in Hcall.
    set (w1 := collab_deleteContainersInTerminatedPod [] t w) in *.
    assert (Store.pods w1 !! uid = Some P) as HP1 by done.
    pose proof (mutate_update_terminated w1 P xid uid t HP1
                  ltac:(by rewrite HidP) ltac:(by rewrite HidP) Hfmt)
      as Hupd.
    eexists _, _, _. split; [exact Hcall |]. right.
    exists uid, P, (Store.pods w). eexists.
    split; [done |]. split; [by left |]. split; [done |]. split; [done |].
    split; [done |]. split; [done |].
    exact Hupd.
Qed.

End StoreClaims.


(** * The claims on the small cluster *)

(** The examples of the spec, run on the model. *)

Example owner_selectivity :
  let pod :=
    default Pod.zero
      (result_of (setPodOwners Pod.zero Scenario.pod1
                    (Scenario.empty_world Scenario.quiet))) in
  Pod.Replicaset pod =
    Some {| Replicaset_ID := dgraph.mkID "0xns:rs1" "ns:rs1" |} ∧
  Pod.Deployment pod = None ∧ Pod.Statefulset pod = None ∧
  Pod.Job pod = None ∧ Pod.Daemonset pod = None.
Proof. vm_compute. done. Qed.

Example volume_aggregation :
  let tr :=
    trace_of (newPod Scenario.pod1
                (Scenario.empty_world Scenario.second_claim_lost)) in
  (Pod.StorageRequest ∘ fst) <$> mutations tr = [10%float] ∧
  (Pod.Pvcs ∘ fst) <$> mutations tr =
    [ [claim_of (dgraph.mkID "0xns:claim1" "ns:claim1")] ].
Proof. vm_compute. done. Qed.

Example unreadable_claim_attached :
  result_of (getPodVolumes Scenario.pod1
               (Scenario.empty_world Scenario.first_claim_unreadable)) =
  Some ([ claim_of (dgraph.mkID "0xns:claim1" "ns:claim1");
          claim_of (dgraph.mkID "0xns:claim2" "ns:claim2") ],
        20%float).
Proof. vm_compute. done. Qed.

Example partial_destinations :
  edges Scenario.world12 ["ns:p2"; "ns:p3"] [5%float; 10%float] =
  [ Pod.zero <| Pod.set_ID := dgraph.mkID "1" "ns:p2" |>
             <| Pod.set_Count := 5%float |> ].
Proof. vm_compute. done. Qed.

Example deletion_sets_end_time :
  map_to_list (Store.pods (Scenario.after Scenario.pod1_deleted Scenario.world1)) =
  (λ kv, (kv.1, kv.2 <| Pod.set_EndTime := "2018-10-01T12:00:00Z" |>)) <$>
    map_to_list (Store.pods Scenario.world1).
Proof. vm_compute. done. Qed.

(** C5, as stated, fails: of two ReplicaSet references that both resolve,
    only the second is in the field afterwards. *)
Lemma setPodOwners_same_kind_overwrites :
  let r := setPodOwners Pod.zero Scenario.pod3
             (Scenario.empty_world Scenario.quiet) in
  api_v1.OwnerReferences Scenario.pod3 !! 0 =
    Some {| api_v1.Kind := "ReplicaSet"; api_v1.Name := "rs1" |} ∧
  EvCreateOrGet KReplicaset "ns:rs1" "0xns:rs1" ∈ trace_of r ∧
  Pod.Replicaset <$> result_of r =
    Some (Some {| Replicaset_ID := dgraph.mkID "0xns:rs2" "ns:rs2" |}) ∧
  Pod.Replicaset <$> result_of r ≠
    Some (Some {| Replicaset_ID := dgraph.mkID "0xns:rs1" "ns:rs1" |}).
Proof.
  vm_compute. split; [done |]. split; [set_solver |]. split; [done |].
  discriminate.
Qed.

Lemma StorePodsInteraction_source_absent_witness :
  dgraph_GetUID "ns:p3" IsPod Scenario.world12 = "" ∧
  StorePodsInteraction "ns:p3" ["ns:p1"; "ns:p2"] [5%float; 10%float]
    Scenario.world12 =
  Some (Some "source pod: ns:p3 is not persisted yet",
        Scenario.world12,
        [ EvGetUID "ns:p3" IsPod "";
          EvLog Info "Source Pod ns:p3 is not persisted yet." ]).
Proof.
  assert (dgraph_GetUID "ns:p3" IsPod Scenario.world12 = "") as Habsent
    by (vm_compute; reflexivity).
  split; [exact Habsent |].
  exact (StorePodsInteraction_source_absent "ns:p3" ["ns:p1"; "ns:p2"]
           [5%float; 10%float] Scenario.world12 Habsent).
Defined.

Lemma StorePodsInteraction_edges_witness :
  length ["ns:p2"; "ns:p3"] = length [5%float; 10%float] ∧
  dgraph_GetUID "ns:p1" IsPod Scenario.world12 ≠ "" ∧
  ∃ (r : dgraph.Assigned + error) w' tr,
    StorePodsInteraction "ns:p1" ["ns:p2"; "ns:p3"] [5%float; 10%float]
      Scenario.world12 = Some (err_of r, w', tr) ∧
    mutations tr =
      [(interactionPod (dgraph_GetUID "ns:p1" IsPod Scenario.world12) "ns:p1"
          (edges Scenario.world12 ["ns:p2"; "ns:p3"] [5%float; 10%float]),
        dgraph.UPDATE)].
Proof.
  assert (length ["ns:p2"; "ns:p3"] = length [5%float; 10%float]) as Hlen
    by reflexivity.
  assert (dgraph_GetUID "ns:p1" IsPod Scenario.world12 ≠ "") as Hsrc
    by (vm_compute; discriminate).
  split; [exact Hlen |]. split; [exact Hsrc |].
  destruct (StorePodsInteraction_edges "ns:p1" ["ns:p2"; "ns:p3"]
              [5%float; 10%float] Scenario.world12 Hlen Hsrc)
    as (r & w' & tr & Hrun & _ & Hm & _).
  exists r, w', tr. split; [exact Hrun | exact Hm].
Defined.

(** C2, as stated, fails: with one destination and two counts the call
    returns no error and records the edge with the first count; with two
    destinations that resolve and one count it panics on the index instead
    of returning an error. *)
Lemma StorePodsInteraction_no_length_check :
  length ["ns:p2"] ≠ length [5%float; 10%float] ∧
  result_of (StorePodsInteraction "ns:p1" ["ns:p2"] [5%float; 10%float]
               Scenario.world12) = Some None ∧
  length ["ns:p2"; "ns:p1"] ≠ length [5%float] ∧
  StorePodsInteraction "ns:p1" ["ns:p2"; "ns:p1"] [5%float]
    Scenario.world12 = None.
Proof.
  split; [discriminate |]. split; [by vm_compute |].
  split; [discriminate |]. by vm_compute.
Qed.

Lemma StorePodsInteraction_unequal_lengths_witness :
  dgraph_GetUID "ns:p1" IsPod Scenario.world12 ≠ "" ∧
  counts_cover Scenario.world12 ["ns:p2"; "ns:p3"] [5%float] = true ∧
  ∃ (r : dgraph.Assigned + error) w' tr,
    StorePodsInteraction "ns:p1" ["ns:p2"; "ns:p3"] [5%float]
      Scenario.world12 = Some (err_of r, w', tr) ∧
    mutations tr =
      [(interactionPod (dgraph_GetUID "ns:p1" IsPod Scenario.world12) "ns:p1"
          (edges Scenario.world12 ["ns:p2"; "ns:p3"] [5%float]),
        dgraph.UPDATE)].
Proof.
  assert (dgraph_GetUID "ns:p1" IsPod Scenario.world12 ≠ "") as Hsrc
    by (vm_compute; discriminate).
  assert (counts_cover Scenario.world12 ["ns:p2"; "ns:p3"] [5%float] = true)
    as Hcover by (vm_compute; reflexivity).
  split; [exact Hsrc |]. split; [exact Hcover |].
  destruct (StorePodsInteraction_unequal_lengths "ns:p1" ["ns:p2"; "ns:p3"]
              [5%float] Scenario.world12 Hsrc) as (Hgo & _).
  destruct (Hgo Hcover) as (r & w' & tr & Hrun & _ & Hm).
  exists r, w', tr. split; [exact Hrun | exact Hm].
Defined.

Lemma StorePod_terminate_cascade_empty_witness :
  api_v1.DeletionTimestamp Scenario.pod1_deleted = Some Scenario.t1 ∧
  time.IsZero Scenario.t1 = false ∧
  ∃ e w' tr,
    StorePod Scenario.pod1_deleted Scenario.world1 = Some (e, w', tr) ∧
    (cascades tr = [ [] ] ∨
     cascades tr = [] ∧
     ∃ pod err, last tr = Some (EvMutateNode pod dgraph.CREATE (inr err)) ∧
                e = Some err).
Proof.
  assert (api_v1.DeletionTimestamp Scenario.pod1_deleted = Some Scenario.t1)
    as Ht by reflexivity.
  assert (time.IsZero Scenario.t1 = false) as Hz by reflexivity.
  split; [exact Ht |]. split; [exact Hz |].
  exact (StorePod_terminate_cascade_empty Scenario.pod1_deleted Scenario.t1
           Scenario.world1 Ht Hz).
Defined.


Lemma StorePod_terminate_keeps_identity_witness :
  api_v1.DeletionTimestamp Scenario.pod1_deleted = Some Scenario.t1 ∧
  time.IsZero Scenario.t1 = false ∧
  Format_RFC3339 (W := Scenario.Cluster) Scenario.t1 ≠ "" ∧
  Store.wf (Store.pods Scenario.world1) ∧
  ∃ e w' tr,
    StorePod Scenario.pod1_deleted Scenario.world1 = Some (e, w', tr) ∧
    ((∃ pod err,
        last tr = Some (EvMutateNode pod dgraph.CREATE (inr err)) ∧
        e = Some err) ∨
     ∃ uid P (r : dgraph.Assigned + error),
       Store.pods Scenario.world1 !! uid = Some P ∧
       e = err_of r ∧
       Store.pods w' =
         match r with
         | inl _ =>
             <[ uid := P <| Pod.set_EndTime :=
                             Format_RFC3339 (W := Scenario.Cluster)
                               Scenario.t1 |> ]>
               (Store.pods Scenario.world1)
         | inr _ => Store.pods Scenario.world1
         end).
Proof.
  assert (api_v1.DeletionTimestamp Scenario.pod1_deleted = Some Scenario.t1)
    as Ht by reflexivity.
  assert (time.IsZero Scenario.t1 = false) as Hz by reflexivity.
  assert (Format_RFC3339 (W := Scenario.Cluster) Scenario.t1 ≠ "") as Hfmt
    by (vm_compute; discriminate).
  assert (Store.wf (Store.pods Scenario.world1)) as Hwf
    by (apply (bool_decide_unpack _); vm_compute; exact I).
  split; [exact Ht |]. split; [exact Hz |]. split; [exact Hfmt |].
  split; [exact Hwf |].
  destruct (StorePod_terminate_keeps_identity Scenario.pod1_deleted
              Scenario.t1 Scenario.world1 Ht Hz Hfmt Hwf)
    as (e & w' & tr & Hrun & Hcases).
  exists e, w', tr. split; [exact Hrun |].
  destruct Hcases as [(pod & err & Hlast & He & _)
                     | (uid & P & before & r & _ & Hbefore & HP & _ & _ & He
                        & Hpods)].
  - left. exists pod, err. split; [exact Hlast | exact He].
  - right. destruct Hbefore as [[-> Hfound] | (_ & Habsent & _)].
    + exists uid, P, r. split; [exact HP |]. split; [exact He | exact Hpods].
    + exfalso. revert Habsent. vm_compute. discriminate.
Defined.

(** * Further properties *)

Lemma syncs_app t1 t2 : syncs (t1 ++ t2) = syncs t1 ++ syncs t2.
Proof.
  induction t1 as [| e t1 IH]; [done |].
  destruct e; simpl; by rewrite ?IH.
Qed.

Lemma label_requests_app t1 t2 :
  label_requests (t1 ++ t2) = label_requests t1 ++ label_requests t2.
Proof.
  induction t1 as [| e t1 IH]; [done |].
  destruct e; simpl; by rewrite ?IH.
Qed.

Lemma labels_got_app t1 t2 :
  labels_got (t1 ++ t2) = labels_got t1 ++ labels_got t2.
Proof.
  induction t1 as [| e t1 IH]; [done |].
  destruct e; simpl; by rewrite ?IH.
Qed.

Lemma lookups_app t1 t2 : lookups (t1 ++ t2) = lookups t1 ++ lookups t2.
Proof.
  induction t1 as [| e t1 IH]; [done |].
  destruct e; simpl; by rewrite ?IH.
Qed.

(** A trace of creation calls has no lookup, no container synchronisation,
    no label call and no cascade. *)
Lemma create_phase_calls_only tr :
  Forall (λ e, create_phase_call e = true) tr →
  lookups tr = [] ∧ syncs tr = [] ∧ label_requests tr = [] ∧ cascades tr = [].
Proof.
  induction 1 as [| e tr He _ IH]; [done |].
  destruct e; try discriminate He; simpl; exact IH.
Qed.

Section MoreSpecs.

Context {W : Type} `{!GraphStore W, !Collaborators W}.

Lemma getPodVolumes_loop_calls namespace vols podVolumes storage (w : W) :
  wp (getPodVolumes_loop namespace vols podVolumes storage)
     (λ _ _ tr, Forall (λ e, create_phase_call e = true) tr) w.
Proof.
  revert podVolumes storage w.
  induction vols as [| vol vols IH]; intros podVolumes storage w; simpl.
  - by wp_step.
  - destruct vol as [[claim|]]; simpl; [| apply IH].
    unfold CreateOrGetPersistentVolumeClaimByID.
    wp_step. wp_step.
    destruct (collab_CreateOrGetByID _ _ w) as [pvcUID w1]; simpl.
    destruct (is_empty pvcUID); simpl.
    + eapply wp_mono; [apply IH |]. intros r0 w0 tr Htr. by constructor.
    + wp_step. wp_step.
      destruct (collab_getPVCFromUID pvcUID w1) as [[pvc|err] w2]; simpl.
      * eapply wp_mono; [apply IH |]. intros r0 w0 tr Htr.
        by repeat constructor.
      * wp_step. wp_step.
        eapply wp_mono; [apply IH |]. intros r0 w0 tr Htr.
        by repeat constructor.
Qed.

Lemma setPodOwners_body_event namespace pod owner (w : W) :
  wp (setPodOwners_body namespace pod owner)
     (λ _ _ tr, ∃ e, tr = [e] ∧ is_owner_event namespace owner e) w.
Proof.
  unfold setPodOwners_body, is_owner_event, owner_kind.
  unfold CreateOrGetDeploymentByID, CreateOrGetReplicasetByID,
    CreateOrGetStatefulsetByID, CreateOrGetJobByID, CreateOrGetDaemonsetByID.
  repeat case_match;
    repeat wp_step;
    try (match goal with
         | |- context [collab_CreateOrGetByID ?k ?x ?w] =>
             destruct (collab_CreateOrGetByID k x w) as [uid w1]
         end; simpl;
         destruct (is_empty uid); simpl);
    repeat wp_step; simpl; eauto.
Qed.

Lemma setPodOwners_loop_events namespace pod owners (w : W) :
  wp (setPodOwners_loop namespace pod owners)
     (λ _ _ tr, Forall2 (is_owner_event namespace) owners tr) w.
Proof.
  revert pod w.
  induction owners as [| owner owners IH]; intros pod w; simpl.
  - wp_step. constructor.
  - wp_step.
    eapply wp_mono; [apply setPodOwners_body_event |].
    intros pod1 w1 t1 (e & -> & He).
    eapply wp_mono; [apply IH |].
    intros pod2 w2 t2 Hrest. simpl. by constructor.
Qed.

Lemma owner_event_creation namespace owner e :
  is_owner_event namespace owner e → create_phase_call e = true.
Proof.
  unfold is_owner_event.
  destruct (owner_kind (api_v1.Kind owner)); [intros [uid ->] | intros ->];
    done.
Qed.

Lemma setPodOwners_loop_calls namespace pod owners (w : W) :
  wp (setPodOwners_loop namespace pod owners) (λ _ _ tr, Forall (λ e, create_phase_call e = true) tr) w.
Proof.
  eapply wp_mono; [apply setPodOwners_loop_events |].
  intros r0 w0 tr Hev.
  induction Hev as [| owner e owners tr He _ IH]; constructor; [| done].
  by apply (owner_event_creation namespace owner).
Qed.

Lemma newPod_calls k8sPod (w : W) :
  wp (newPod k8sPod) (λ _ _ tr, Forall (λ e, create_phase_call e = true) tr) w.
Proof.
  unfold newPod.
  wp_step. wp_step.
  destruct (collab_createOrGetNodeByID _ w) as [[nodeUID err] w1]; simpl.
  wp_step. unfold CreateOrGetNamespaceByID. wp_step.
  destruct (collab_CreateOrGetByID _ _ w1) as [namespaceUID w2]; simpl.
  wp_step.
  eapply wp_mono; [apply getPodVolumes_loop_calls |].
  intros [pvcs storage] w3 trV HV.
  wp_step. unfold setPodOwners.
  eapply wp_mono; [apply setPodOwners_loop_calls |].
  intros pod w4 trO HO.
  wp_step.
  repeat constructor. apply Forall_app. split; [done |].
  apply Forall_app. split; [done |]. by repeat constructor.
Qed.

End MoreSpecs.

Section StorePodProperties.

Context {W : Type} `{!GraphStore W, !Collaborators W}.

Lemma populatePodLabels_loop_exact podLabels labels (w : W) :
  wp (populatePodLabels_loop podLabels labels)
     (λ r _ tr,
        r = labels ++ labels_got tr ∧
        label_requests tr = podLabels ∧
        length tr = length podLabels ∧
        mutations tr = [] ∧ cascades tr = [] ∧ syncs tr = [] ∧
        lookups tr = []) w.
Proof.
  revert labels w.
  induction podLabels as [| [key value] podLabels IH]; intros labels w; simpl.
  - wp_step. by rewrite app_nil_r.
  - wp_step. wp_step.
    destruct (collab_GetLabel key value w) as [l w1]; simpl.
    eapply wp_mono; [apply IH |].
    intros r w' tr (-> & Hreq & Hlen & Hm & Hc & Hs & Hl). simpl.
    rewrite Hreq, Hlen, <- app_assoc. done.
Qed.

(** X4: populatePodLabels calls GetLabel once for each entry of the label
    map, in the order the entries are visited, and sets the labels of the
    pod to the labels that came back, in that order; no other field
    changes.  The labels the pod had before are dropped: the call gives the
    same result whatever they were, and with an empty map the pod ends with
    no label. *)
Theorem populatePodLabels_replaces
    (pod : Pod.t) (podLabels : list (string * string)) (w : W) :
  ∃ w' tr,
    populatePodLabels pod podLabels w =
      Some (pod <| Pod.set_Labels := labels_got tr |>, w', tr) ∧
    label_requests tr = podLabels ∧
    length (labels_got tr) = length podLabels ∧
    ∀ old, populatePodLabels (pod <| Pod.set_Labels := old |>) podLabels w =
           populatePodLabels pod podLabels w.
Proof.
  pose proof (populatePodLabels_loop_exact podLabels [] w) as Hloop.
  apply wp_run in Hloop as (labels & w' & tr & Hrun & -> & Hreq & Hlen & _).
  exists w', (EvLog Debug ("k8s pod: (" +:+ Pod.Name pod +:+ "), labels: ("
                           +:+ Sprint_labels podLabels +:+ ")") :: tr).
  split; [| split; [done | split]].
  - unfold populatePodLabels, bind, log, emit, ret. rewrite Hrun. simpl.
    by rewrite app_nil_r.
  - simpl. rewrite <- Hreq. clear.
    induction tr as [| e tr IH]; [done |]. destruct e; simpl; auto.
  - intros old. unfold populatePodLabels, bind, log, emit, ret.
    assert (Pod.Name (pod <| Pod.set_Labels := old |>) = Pod.Name pod) as ->
      by by destruct pod.
    destruct (populatePodLabels_loop podLabels [] w) as [[[ls w1] t1]|];
      [| done].
    by destruct pod.
Qed.

(** The update phase, call by call. *)
Lemma StorePod_mutate_update_exact k8sPod xid uid (w : W) :
  api_v1.IsZero (api_v1.DeletionTimestamp k8sPod) = true →
  wp (StorePod_mutate k8sPod xid uid)
     (λ e w' tr,
        ∃ namespaceUID containers metrics trL r w1,
          let pod := (updatedPod xid uid containers metrics)
                       <| Pod.set_Labels := labels_got trL |> in
          tr = [ EvCreateOrGet KNamespace (api_v1.Namespace k8sPod)
                   namespaceUID;
                 EvStoreContainers k8sPod uid namespaceUID
                   (containers, metrics) ]
               ++ trL ++ [EvMutateNode pod dgraph.UPDATE r] ∧
          (r, w') = dgraph_MutateNode pod dgraph.UPDATE w1 ∧
          e = err_of r ∧
          label_requests trL = api_v1.Labels k8sPod ∧
          mutations trL = [] ∧ cascades trL = [] ∧ syncs trL = [] ∧
          lookups trL = []) w.
Proof.
  intros Hz. unfold StorePod_mutate. rewrite Hz. simpl.
  wp_step. wp_step. unfold CreateOrGetNamespaceByID. wp_step.
  destruct (collab_CreateOrGetByID _ _ w) as [namespaceUID w1]; simpl.
  wp_step. wp_step.
  destruct (collab_StoreAndRetrieveContainersAndMetrics _ _ _ w1)
    as [[containers metrics] w2]; simpl.
  unfold populatePodLabels.
  wp_step. wp_step. wp_step.
  eapply wp_mono; [apply (populatePodLabels_loop_exact _ []) |].
  intros labels w3 tr (-> & Hreq & Hlen & Hm & Hc & Hs & Hl).
  wp_step. wp_step. wp_step.
  set (line := EvLog Debug _).
  exists namespaceUID, containers, metrics, (line :: tr).
  eexists _, w3. cbv zeta.
  split; [| split; [| split; [done | done]]].
  - simpl. rewrite !app_nil_r. reflexivity.
  - simpl. by destruct (dgraph_MutateNode _ dgraph.UPDATE w3).
Qed.

(** Either phase ends with the one UPDATE, for the identity it was given,
    and returns its error. *)
Lemma StorePod_mutate_shape k8sPod xid uid (w : W) :
  wp (StorePod_mutate k8sPod xid uid)
     (λ e _ tr,
        ∃ pod tr0 r,
          tr = tr0 ++ [EvMutateNode pod dgraph.UPDATE r] ∧
          e = err_of r ∧
          Pod.ID pod = dgraph.mkID uid xid ∧
          mutations tr0 = [] ∧ lookups tr0 = [] ∧
          if api_v1.IsZero (api_v1.DeletionTimestamp k8sPod)
          then cascades tr0 = [] ∧ ∃ namespaceUID,
                 syncs tr0 = [(uid, namespaceUID)]
          else syncs tr0 = [] ∧ label_requests tr0 = []) w.
Proof.
  destruct (api_v1.IsZero (api_v1.DeletionTimestamp k8sPod)) eqn:Hz.
  - eapply wp_mono; [by apply StorePod_mutate_update_exact |].
    intros e w' tr (namespaceUID & containers & metrics & trL & r & w1 & Htr
                    & _ & He & _ & Hm & Hc & Hs & Hl).
    cbv zeta in Htr. eexists _, _, r.
    split; [rewrite Htr; by rewrite app_assoc |].
    split; [done |]. split; [by destruct (labels_got trL) |].
    rewrite mutations_app, lookups_app, cascades_app, syncs_app, Hm, Hl, Hc,
      Hs.
    repeat split; try done. by exists namespaceUID.
  - destruct (api_v1.DeletionTimestamp k8sPod) as [t |] eqn:Ht;
      [| discriminate].
    apply wp_run. simpl in Hz.
    rewrite (StorePod_mutate_terminate k8sPod xid uid t w Ht Hz).
    eexists _, _, _. split; [reflexivity |].
    eexists (terminatedPod xid uid t), [EvDeleteContainers [] t], _.
    by repeat split.
Qed.

(** X1: StorePod never panics, whatever the pod and the store.  It issues
    one UPDATE, or a CREATE and then one UPDATE, or, when the CREATE fails,
    that CREATE alone; the last call it makes is its last mutation and the
    error it returns is the error of that mutation.  It looks the pod up
    exactly once. *)
Theorem StorePod_returns_last_mutation (k8sPod : api_v1.Pod) (w : W) :
  ∃ e w' tr pod mode r,
    StorePod k8sPod w = Some (e, w', tr) ∧
    last tr = Some (EvMutateNode pod mode r) ∧
    e = err_of r ∧
    lookups tr = [pod_xid k8sPod] ∧
    (mutations tr = [(pod, dgraph.UPDATE)] ∨
     (∃ created, mutations tr = [(created, dgraph.CREATE);
                                 (pod, dgraph.UPDATE)]) ∨
     (mutations tr = [(pod, dgraph.CREATE)] ∧ ∃ err, r = inr err)).
Proof.
  unfold pod_xid.
  destruct (is_empty (dgraph_GetUID
                        (xid_of (api_v1.Namespace k8sPod)
                                (api_v1.Pod_Name k8sPod)) IsPod w))
    eqn:Hlookup.
  - rewrite (StorePod_absent k8sPod w Hlookup).
    pose proof (newPod_spec _ Frame_any k8sPod w) as Hnew.
    pose proof (newPod_calls k8sPod w) as Hcalls.
    apply wp_run in Hcalls as (r & w1 & t1 & Hrun & Hcalls).
    apply wp_run in Hnew
      as (r' & w1' & t1' & Hrun' & nodeUID & err & namespaceUID & trV & trO
          & created & w0 & Ht1 & _ & _ & _ & _ & _ & _ & _ & _ & _ & HmV & HmO
          & _).
    rewrite Hrun in Hrun'. injection Hrun' as <- <- <-.
    rewrite Hrun.
    destruct (create_phase_calls_only _ Hcalls) as (Hl1 & _).
    assert (mutations t1 = [(created, dgraph.CREATE)]) as Hm1.
    { rewrite Ht1. simpl. by rewrite !mutations_app, HmV, HmO. }
    destruct r as [assigned | err'].
    + pose proof (StorePod_mutate_shape k8sPod
                    (xid_of (api_v1.Namespace k8sPod) (api_v1.Pod_Name k8sPod))
                    (dgraph.at_key (dgraph.Uids assigned) "blank-0") w1)
        as Hshape.
      apply wp_run in Hshape
        as (e & w2 & t2 & -> & pod & tr0 & r & -> & He & _ & Hm0 & Hl0 & _).
      exists e, w2. eexists _, pod, dgraph.UPDATE, r.
      split; [reflexivity |].
      split.
      { rewrite app_comm_cons, (app_comm_cons tr0), !app_assoc.
        apply last_snoc. }
      split; [done |].
      split.
      { cbn [lookups]. rewrite lookups_app. cbn [lookups].
        by rewrite lookups_app, Hl1, Hl0. }
      right. left. exists created.
      cbn [mutations]. rewrite mutations_app. cbn [mutations].
      by rewrite mutations_app, Hm1, Hm0.
    + exists (Some err'), w1. eexists _, created, dgraph.CREATE, (inr err').
      split; [reflexivity |].
      split.
      { rewrite Ht1. simpl. rewrite !app_assoc, !app_comm_cons.
        apply last_snoc. }
      split; [done |].
      split; [cbn [lookups]; by rewrite Hl1 |].
      right. right. split; [done | by exists err'].
  - rewrite (StorePod_resolved k8sPod w Hlookup).
    pose proof (StorePod_mutate_shape k8sPod
                  (xid_of (api_v1.Namespace k8sPod) (api_v1.Pod_Name k8sPod))
                  (dgraph_GetUID
                     (xid_of (api_v1.Namespace k8sPod)
                             (api_v1.Pod_Name k8sPod)) IsPod w) w) as Hshape.
    apply wp_run in Hshape
      as (e & w2 & t2 & -> & pod & tr0 & r & -> & He & _ & Hm0 & Hl0 & _).
    exists e, w2. eexists _, pod, dgraph.UPDATE, r.
    split; [reflexivity |].
    split; [rewrite app_comm_cons; apply last_snoc |].
    split; [done |].
    split; [cbn [lookups]; by rewrite lookups_app, Hl0 |].
    left. cbn [mutations]. by rewrite mutations_app, Hm0.
Qed.

(** X2: when the lookup does not find the pod, StorePod creates it.  If the
    CREATE fails, its error is returned and nothing else is sent.  If it
    succeeds, the internal id used from then on is the entry of the
    assigned ids under the key "blank-0": the UPDATE that follows carries
    it, and for a pod without deletion marker the container
    synchronisation is called with it.  StorePod does not check that the
    entry is there: when the store reports no such key, it goes on with
    the empty internal id. *)
Theorem StorePod_uses_first_blank_node (k8sPod : api_v1.Pod) (w : W) :
  dgraph_GetUID (pod_xid k8sPod) IsPod w = "" →
  ∃ e w' tr created rc,
    StorePod k8sPod w = Some (e, w', tr) ∧
    EvMutateNode created dgraph.CREATE rc ∈ tr ∧
    match rc with
    | inr err => e = Some err ∧ mutations tr = [(created, dgraph.CREATE)]
    | inl assigned =>
        let uid := dgraph.at_key (dgraph.Uids assigned) "blank-0" in
        ∃ pod r,
          mutations tr = [(created, dgraph.CREATE); (pod, dgraph.UPDATE)] ∧
          last tr = Some (EvMutateNode pod dgraph.UPDATE r) ∧
          e = err_of r ∧
          Pod.ID pod = dgraph.mkID uid (pod_xid k8sPod) ∧
          (api_v1.IsZero (api_v1.DeletionTimestamp k8sPod) = true →
           ∃ namespaceUID, syncs tr = [(uid, namespaceUID)]) ∧
          (dgraph.Uids assigned !! "blank-0" = None → uid = "")
    end.
Proof.
  unfold pod_xid. intros Habsent.
  assert (is_empty (dgraph_GetUID
                      (xid_of (api_v1.Namespace k8sPod)
                              (api_v1.Pod_Name k8sPod)) IsPod w) = true)
    as Hlookup by by rewrite Habsent.
  rewrite (StorePod_absent k8sPod w Hlookup).
  pose proof (newPod_spec _ Frame_any k8sPod w) as Hnew.
  pose proof (newPod_calls k8sPod w) as Hcalls.
  apply wp_run in Hcalls as (r & w1 & t1 & Hrun & Hcalls).
  apply wp_run in Hnew
    as (r' & w1' & t1' & Hrun' & nodeUID & err & namespaceUID & trV & trO
        & created & w0 & Ht1 & _ & _ & _ & _ & _ & _ & _ & _ & _ & HmV & HmO
        & _).
  rewrite Hrun in Hrun'. injection Hrun' as <- <- <-.
  rewrite Hrun.
  destruct (create_phase_calls_only _ Hcalls) as (_ & Hs1 & _).
  assert (mutations t1 = [(created, dgraph.CREATE)]) as Hm1.
  { rewrite Ht1. simpl. by rewrite !mutations_app, HmV, HmO. }
  assert (EvMutateNode created dgraph.CREATE r ∈ t1) as Hcreate.
  { rewrite Ht1, !elem_of_app, list_elem_of_singleton. auto. }
  destruct r as [assigned | err'].
  - pose proof (StorePod_mutate_shape k8sPod
                  (xid_of (api_v1.Namespace k8sPod) (api_v1.Pod_Name k8sPod))
                  (dgraph.at_key (dgraph.Uids assigned) "blank-0") w1)
      as Hshape.
    apply wp_run in Hshape
      as (e & w2 & t2 & -> & pod & tr0 & r & -> & He & Hid & Hm0 & _ & Hphase).
    exists e, w2. eexists _, created, (inl assigned).
    split; [reflexivity |].
    split; [rewrite elem_of_cons, elem_of_app; auto |].
    cbv zeta. exists pod, r.
    split.
    { cbn [mutations]. rewrite mutations_app. cbn [mutations].
      by rewrite mutations_app, Hm1, Hm0. }
    split.
    { rewrite app_comm_cons, (app_comm_cons tr0), !app_assoc.
      apply last_snoc. }
    split; [done |]. split; [done |]. split.
    + intros Hz. rewrite Hz in Hphase. destruct Hphase as [_ [ns Hsync]].
      exists ns. cbn [syncs]. rewrite syncs_app. cbn [syncs].
      by rewrite syncs_app, Hs1, Hsync.
    + intros Hmissing. unfold dgraph.at_key. by rewrite Hmissing.
  - exists (Some err'), w1. eexists _, created, (inr err').
    split; [reflexivity |]. split; [rewrite elem_of_cons; auto |].
    split; [done |]. cbn [mutations]. by rewrite Hm1.
Qed.

(** X3: for a pod that the lookup finds and that has no deletion marker,
    StorePod makes, in this order, the lookup, the create-or-get of the
    namespace, the container synchronisation (with the internal id the
    lookup found and the namespace id just returned), a debug line and one
    GetLabel per label entry, and one UPDATE.  The entity of that UPDATE
    holds the identity, the containers and the four metrics that the
    synchronisation returned and the labels that came back, and nothing
    else: every other field is at its zero value.  The error returned is
    the one of the UPDATE. *)
Theorem StorePod_update_phase (k8sPod : api_v1.Pod) (w : W) :
  dgraph_GetUID (pod_xid k8sPod) IsPod w ≠ "" →
  api_v1.IsZero (api_v1.DeletionTimestamp k8sPod) = true →
  ∃ namespaceUID containers metrics trL r w1 w',
    let uid := dgraph_GetUID (pod_xid k8sPod) IsPod w in
    let pod :=
      Pod.zero
        <| Pod.set_ID := dgraph.mkID uid (pod_xid k8sPod) |>
        <| Pod.set_Containers := containers |>
        <| Pod.set_CPURequest := Metrics_CPURequest metrics |>
        <| Pod.set_CPULimit := Metrics_CPULimit metrics |>
        <| Pod.set_MemoryRequest := Metrics_MemoryRequest metrics |>
        <| Pod.set_MemoryLimit := Metrics_MemoryLimit metrics |>
        <| Pod.set_Labels := labels_got trL |> in
    StorePod k8sPod w =
      Some (err_of r, w',
            [ EvGetUID (pod_xid k8sPod) IsPod uid;
              EvCreateOrGet KNamespace (api_v1.Namespace k8sPod) namespaceUID;
              EvStoreContainers k8sPod uid namespaceUID (containers, metrics) ]
            ++ trL ++ [EvMutateNode pod dgraph.UPDATE r]) ∧
    (r, w') = dgraph_MutateNode pod dgraph.UPDATE w1 ∧
    label_requests trL = api_v1.Labels k8sPod ∧
    length trL = S (length (api_v1.Labels k8sPod)) ∧
    mutations trL = [] ∧ cascades trL = [] ∧ syncs trL = [] ∧
    lookups trL = [].
Proof.
  unfold pod_xid. intros Hfound Hz.
  assert (is_empty (dgraph_GetUID
                      (xid_of (api_v1.Namespace k8sPod)
                              (api_v1.Pod_Name k8sPod)) IsPod w) = false)
    as Hlookup by (unfold is_empty; by apply String.eqb_neq).
  rewrite (StorePod_resolved k8sPod w Hlookup).
  (* the update phase, once more with the length of the label part *)
  unfold StorePod_mutate. rewrite Hz. simpl.
  unfold bind at 1. unfold bind at 1. unfold CreateOrGetNamespaceByID.
  unfold CreateOrGetByID at 1. unfold call at 1.
  destruct (collab_CreateOrGetByID _ _ w) as [namespaceUID w1].
  unfold bind at 1. unfold StoreAndRetrieveContainersAndMetrics. unfold call at 1.
  destruct (collab_StoreAndRetrieveContainersAndMetrics _ _ _ w1)
    as [[containers metrics] w2].
  unfold populatePodLabels. unfold bind at 1. unfold log, emit at 1.
  unfold bind at 1.
  pose proof (populatePodLabels_loop_exact (api_v1.Labels k8sPod) [] w2)
    as Hloop.
  apply wp_run in Hloop
    as (labels & w3 & tr & -> & -> & Hreq & Hlen & Hm & Hc & Hs & Hl).
  unfold ret at 1. unfold bind, MutateNode, call, ret.
  set (line := EvLog Debug _).
  destruct (dgraph_MutateNode _ dgraph.UPDATE w3) as [r w'] eqn:Hmut.
  exists namespaceUID, containers, metrics, (line :: tr), r, w3, w'.
  cbv zeta. split; [| split; [| by rewrite <- Hlen]].
  - simpl. by rewrite !app_nil_r.
  - simpl in *. by rewrite Hmut.
Qed.

(** X5: StorePod runs the phase that the deletion marker selects, and only
    that one.  For a pod with a deletion marker it makes no container
    synchronisation and no GetLabel call; for a pod without one it never
    invokes the termination cascade.  This holds also when the pod had to
    be created first. *)
Theorem StorePod_phases_exclusive (k8sPod : api_v1.Pod) (w : W) :
  ∃ e w' tr,
    StorePod k8sPod w = Some (e, w', tr) ∧
    if api_v1.IsZero (api_v1.DeletionTimestamp k8sPod)
    then cascades tr = []
    else syncs tr = [] ∧ label_requests tr = [].
Proof.
  destruct (is_empty (dgraph_GetUID
                        (xid_of (api_v1.Namespace k8sPod)
                                (api_v1.Pod_Name k8sPod)) IsPod w))
    eqn:Hlookup.
  - rewrite (StorePod_absent k8sPod w Hlookup).
    pose proof (newPod_calls k8sPod w) as Hcalls.
    apply wp_run in Hcalls as (r & w1 & t1 & -> & Hcalls).
    destruct (create_phase_calls_only _ Hcalls) as (_ & Hs1 & Hl1 & Hc1).
    destruct r as [assigned | err'].
    + pose proof (StorePod_mutate_shape k8sPod
                    (xid_of (api_v1.Namespace k8sPod) (api_v1.Pod_Name k8sPod))
                    (dgraph.at_key (dgraph.Uids assigned) "blank-0") w1)
        as Hshape.
      apply wp_run in Hshape
        as (e & w2 & t2 & -> & pod & tr0 & r & -> & _ & _ & _ & _ & Hphase).
      eexists _, _, _. split; [reflexivity |].
      cbn [cascades syncs label_requests].
      rewrite cascades_app, syncs_app, label_requests_app.
      cbn [cascades syncs label_requests].
      rewrite cascades_app, syncs_app, label_requests_app, Hs1, Hl1, Hc1.
      simpl. rewrite !app_nil_r.
      destruct (api_v1.IsZero _); [by destruct Hphase | done].
    + eexists _, _, _. split; [reflexivity |].
      cbn [cascades syncs label_requests]. rewrite Hs1, Hl1, Hc1.
      by destruct (api_v1.IsZero _).
  - rewrite (StorePod_resolved k8sPod w Hlookup).
    pose proof (StorePod_mutate_shape k8sPod
                  (xid_of (api_v1.Namespace k8sPod) (api_v1.Pod_Name k8sPod))
                  (dgraph_GetUID
                     (xid_of (api_v1.Namespace k8sPod)
                             (api_v1.Pod_Name k8sPod)) IsPod w) w) as Hshape.
    apply wp_run in Hshape
      as (e & w2 & t2 & -> & pod & tr0 & r & -> & _ & _ & _ & _ & Hphase).
    eexists _, _, _. split; [reflexivity |].
    cbn [cascades syncs label_requests].
    rewrite cascades_app, syncs_app, label_requests_app. simpl.
    rewrite !app_nil_r.
    destruct (api_v1.IsZero _); [by destruct Hphase | done].
Qed.

(** X6: whatever the node, namespace, volume and owner handlers answer,
    the entity that newPod sends by CREATE has no internal id, the
    external id namespace:name, the pod discriminator set, the name "pod-"
    followed by the pod name, the type "pod" and the start time formatted
    from the creation timestamp.  It never carries an end time, not even
    for a pod that has a deletion marker, nor containers, interaction
    edges, labels, services or cpu and memory metrics. *)
Theorem newPod_entity_base (k8sPod : api_v1.Pod) (w : W) :
  ∃ pod r w' tr,
    newPod k8sPod w = Some (r, w', tr) ∧
    last tr = Some (EvMutateNode pod dgraph.CREATE r) ∧
    Pod.ID pod = dgraph.mkID "" (pod_xid k8sPod) ∧
    Pod.IsPod pod = true ∧
    Pod.Name pod = "pod-" +:+ api_v1.Pod_Name k8sPod ∧
    Pod.Type_ pod = "pod" ∧
    Pod.StartTime pod = Format_RFC3339 (api_v1.CreationTimestamp k8sPod) ∧
    Pod.EndTime pod = "" ∧
    Pod.Containers pod = [] ∧ Pod.Pods pod = [] ∧ Pod.Labels pod = [] ∧
    Pod.Cid pod = [] ∧
    Pod.Count pod = 0%float ∧
    Pod.CPURequest pod = 0%float ∧ Pod.CPULimit pod = 0%float ∧
    Pod.MemoryRequest pod = 0%float ∧ Pod.MemoryLimit pod = 0%float.
Proof.
  pose proof (newPod_spec _ Frame_any k8sPod w) as Hnew.
  apply wp_run in Hnew
    as (r & w' & tr & Hrun & nodeUID & err & namespaceUID & trV & trO & pod
        & w0 & -> & _ & _ & Hrest & _).
  exists pod, r, w'. eexists. split; [exact Hrun |].
  split; [by rewrite !app_assoc, last_snoc |].
  assert (∀ p, (Pod.ID p, Pod.IsPod p, Pod.Name p, Pod.Type_ p,
                Pod.StartTime p, Pod.EndTime p, Pod.Containers p, Pod.Pods p,
                Pod.Labels p, Pod.Cid p, Pod.Count p, Pod.CPURequest p,
                Pod.CPULimit p, Pod.MemoryRequest p, Pod.MemoryLimit p)
             = (Pod.ID (without_owners p), Pod.IsPod (without_owners p),
                Pod.Name (without_owners p), Pod.Type_ (without_owners p),
                Pod.StartTime (without_owners p),
                Pod.EndTime (without_owners p),
                Pod.Containers (without_owners p),
                Pod.Pods (without_owners p), Pod.Labels (without_owners p),
                Pod.Cid (without_owners p), Pod.Count (without_owners p),
                Pod.CPURequest (without_owners p),
                Pod.CPULimit (without_owners p),
                Pod.MemoryRequest (without_owners p),
                Pod.MemoryLimit (without_owners p))) as Hsame
    by (by intros []).
  specialize (Hsame pod). rewrite Hrest in Hsame.
  unfold createdPod in Hsame. simpl in Hsame.
  by injection Hsame as -> -> -> -> -> -> -> -> -> -> -> -> -> -> ->.
Qed.

End StorePodProperties.

Section InteractionProperties.

Context {W : Type} `{!GraphStore W, !Collaborators W}.

Lemma retrievePodsFromPodsXIDs_loop_exact podsXIDs pods (w : W) :
  retrievePodsFromPodsXIDs_loop podsXIDs pods w =
  Some (pods ++ omap (plain_pod w) podsXIDs, w, plain_lookups w podsXIDs).
Proof.
  revert pods.
  induction podsXIDs as [| podXID podsXIDs IH]; intros pods; simpl.
  - unfold ret. by rewrite app_nil_r.
  - unfold bind at 1. unfold GetUID at 1. unfold query.
    unfold plain_pod at 1.
    destruct (is_empty (dgraph_GetUID podXID IsPod w)) eqn:Hempty.
    + unfold bind, log, emit. by rewrite IH.
    + rewrite IH. simpl. by rewrite <- app_assoc.
Qed.

Lemma omap_plain_cons (w : W) xid podsXIDs :
  omap (plain_pod w) (xid :: podsXIDs) =
  match plain_pod w xid with
  | Some pod => pod :: omap (plain_pod w) podsXIDs
  | None => omap (plain_pod w) podsXIDs
  end.
Proof. done. Qed.

Lemma edges_cons (w : W) xid destinations count counts :
  edges w (xid :: destinations) (count :: counts) =
  match edge_to w xid count with
  | Some pod => pod :: edges w destinations counts
  | None => edges w destinations counts
  end.
Proof. done. Qed.

(** X7: retrievePodsFromPodsXIDs never fails and changes nothing: it looks
    every id up once, in order, and returns one pod, holding the internal
    and the external id and nothing else, for each id that resolves, in
    the order of the input; an id that does not resolve leaves a debug
    line and no pod.  The result is never longer than the input. *)
Theorem retrievePodsFromPodsXIDs_exact (podsXIDs : list string) (w : W) :
  retrievePodsFromPodsXIDs podsXIDs w =
    Some (omap (plain_pod w) podsXIDs, w, plain_lookups w podsXIDs) ∧
  lookups (plain_lookups w podsXIDs) = podsXIDs ∧
  mutations (plain_lookups w podsXIDs) = [] ∧
  (length (omap (plain_pod w) podsXIDs) ≤ length podsXIDs)%nat ∧
  ∀ pod, pod ∈ omap (plain_pod w) podsXIDs ↔
         ∃ xid, xid ∈ podsXIDs ∧ dgraph_GetUID xid IsPod w ≠ "" ∧
                pod = Pod.zero
                        <| Pod.set_ID :=
                             dgraph.mkID (dgraph_GetUID xid IsPod w) xid |>.
Proof.
  split; [apply (retrievePodsFromPodsXIDs_loop_exact podsXIDs []) |].
  split.
  { induction podsXIDs as [| xid podsXIDs IH]; [done |].
    simpl. rewrite lookups_app, IH.
    by destruct (is_empty (dgraph_GetUID xid IsPod w)). }
  split.
  { induction podsXIDs as [| xid podsXIDs IH]; [done |].
    simpl. rewrite mutations_app, IH.
    by destruct (is_empty (dgraph_GetUID xid IsPod w)). }
  split.
  { induction podsXIDs as [| xid podsXIDs IH]; [done |].
    rewrite omap_plain_cons.
    destruct (plain_pod w xid); cbn [length]; lia. }
  intros pod. rewrite list_elem_of_omap. unfold plain_pod, is_empty.
  split.
  - intros (xid & Hin & Hpod).
    destruct (String.eqb (dgraph_GetUID xid IsPod w) "") eqn:Hempty;
      [discriminate |].
    injection Hpod as <-. exists xid.
    split; [done |]. split; [by apply String.eqb_neq | done].
  - intros (xid & Hin & Hfound & ->). exists xid. split; [done |].
    apply String.eqb_neq in Hfound. by rewrite Hfound.
Qed.

Lemma unweighted_edges (w : W) destinations (counts : list float64) :
  counts_cover w destinations counts = true →
  Pod.set_Count 0%float <$> edges w destinations counts =
    omap (plain_pod w) destinations.
Proof.
  revert counts.
  induction destinations as [| xid destinations IH]; intros counts Hcover;
    [done |].
  cbn [counts_cover] in Hcover.
  apply andb_true_iff in Hcover as [Hhead Htail].
  rewrite omap_plain_cons. unfold plain_pod at 1.
  destruct counts as [| count counts].
  - rewrite Hhead, <- (IH [] Htail). by rewrite !edges_nil_r.
  - rewrite edges_cons. unfold edge_to.
    rewrite <- (IH counts Htail).
    by destruct (is_empty (dgraph_GetUID xid IsPod w)).
Qed.

Lemma lookups_destination_lookups (w : W) destinations :
  lookups (destination_lookups w destinations) = destinations.
Proof.
  induction destinations as [| xid destinations IH]; [done |].
  simpl. rewrite lookups_app, IH.
  by destruct (is_empty (dgraph_GetUID xid IsPod w)).
Qed.

(** X8: when every id that resolves has a count at its index,
    retrievePodsWithCountAsEdgeWeightFromPodsXIDs and
    retrievePodsFromPodsXIDs look up the same ids in the same order and
    return the same pods in the same order, apart from the weight: the
    second result is the first with every weight reset to zero.  Neither
    changes the world. *)
Theorem retrievePods_same_identities
    (podsXIDs : list string) (counts : list float64) (w : W) :
  counts_cover w podsXIDs counts = true →
  ∃ weighted plain t1 t2,
    retrievePodsWithCountAsEdgeWeightFromPodsXIDs podsXIDs counts w =
      Some (weighted, w, t1) ∧
    retrievePodsFromPodsXIDs podsXIDs w = Some (plain, w, t2) ∧
    plain = Pod.set_Count 0%float <$> weighted ∧
    Pod.ID <$> plain = Pod.ID <$> weighted ∧
    lookups t1 = podsXIDs ∧ lookups t2 = podsXIDs.
Proof.
  intros Hcover.
  unfold retrievePodsWithCountAsEdgeWeightFromPodsXIDs,
    retrievePodsFromPodsXIDs.
  rewrite retrievePodsWithCount_loop_spec, drop_0, Hcover.
  rewrite retrievePodsFromPodsXIDs_loop_exact.
  eexists _, _, _, _. split; [reflexivity |]. split; [reflexivity |].
  simpl. rewrite <- (unweighted_edges w podsXIDs counts Hcover).
  split; [done |]. split.
  - rewrite <- list_fmap_compose. apply list_fmap_ext.
    intros i pod _. by destruct pod.
  - split; [apply lookups_destination_lookups |].
    clear. induction podsXIDs as [| xid podsXIDs IH]; [done |].
    simpl. rewrite lookups_app, IH.
    by destruct (is_empty (dgraph_GetUID xid IsPod w)).
Qed.

Lemma counts_cover_false (w : W) destinations (counts : list float64) :
  counts_cover w destinations counts = false ↔
  ∃ i xid, destinations !! i = Some xid ∧
           dgraph_GetUID xid IsPod w ≠ "" ∧ (length counts ≤ i)%nat.
Proof.
  split.
  - revert counts.
    induction destinations as [| xid destinations IH]; intros counts;
      [discriminate |].
    simpl. rewrite andb_false_iff. intros [Hhead | Htail].
    + destruct counts as [| count counts]; [| discriminate].
      exists 0%nat, xid. split; [done |]. split; [| simpl; lia].
      unfold is_empty in Hhead. by apply String.eqb_neq.
    + destruct (IH _ Htail) as (i & xid' & Hi & Hfound & Hlen).
      exists (S i), xid'. split; [done |]. split; [done |].
      destruct counts; simpl in *; lia.
  - intros (i & xid & Hi & Hfound & Hlen).
    destruct (counts_cover w destinations counts) eqn:Hcover; [| done].
    pose proof (proj1 (counts_cover_spec w destinations counts) Hcover
                  i xid Hi Hfound). lia.
Qed.

(** X9: StorePodsInteraction panics in exactly one situation: the source
    resolves and some destination that resolves stands at an index at
    which there is no count.  In every other case it returns. *)
Theorem StorePodsInteraction_panics_iff
    (sourcePodXID : string) (destinationPodsXIDs : list string)
    (counts : list float64) (w : W) :
  StorePodsInteraction sourcePodXID destinationPodsXIDs counts w = None ↔
  dgraph_GetUID sourcePodXID IsPod w ≠ "" ∧
  ∃ i xid, destinationPodsXIDs !! i = Some xid ∧
           dgraph_GetUID xid IsPod w ≠ "" ∧ (length counts ≤ i)%nat.
Proof.
  rewrite <- counts_cover_false.
  destruct (is_empty (dgraph_GetUID sourcePodXID IsPod w)) eqn:Hsrc.
  - assert (dgraph_GetUID sourcePodXID IsPod w = "") as Habsent
      by (unfold is_empty in Hsrc; by apply String.eqb_eq).
    unfold StorePodsInteraction, bind, GetUID, query. rewrite Hsrc. simpl.
    split; [discriminate | by intros [Hfound _]].
  - assert (dgraph_GetUID sourcePodXID IsPod w ≠ "") as Hfound
      by (unfold is_empty in Hsrc; by apply String.eqb_neq).
    rewrite (StorePodsInteraction_resolved sourcePodXID destinationPodsXIDs
               counts w Hsrc).
    destruct (counts_cover w destinationPodsXIDs counts);
      split; try done. by intros [_ ?].
Qed.

Lemma edges_unresolved (w : W) destinations (counts : list float64) :
  (∀ xid, xid ∈ destinations → dgraph_GetUID xid IsPod w = "") →
  edges w destinations counts = [] ∧
  counts_cover w destinations counts = true.
Proof.
  revert counts.
  induction destinations as [| xid destinations IH]; intros counts Hnone;
    [done |].
  assert (is_empty (dgraph_GetUID xid IsPod w) = true) as Hhead.
  { rewrite (Hnone xid) by (apply elem_of_cons; auto). done. }
  assert (∀ x, x ∈ destinations → dgraph_GetUID x IsPod w = "") as Hrest.
  { intros x Hx. apply Hnone, elem_of_cons. auto. }
  split.
  - destruct counts as [| count counts]; [apply edges_nil_r |].
    rewrite edges_cons. unfold edge_to. rewrite Hhead.
    apply (IH counts Hrest).
  - cbn [counts_cover]. rewrite (proj2 (IH (tail counts) Hrest)), Hhead.
    by destruct counts.
Qed.

(** X10: when the source resolves and no destination does, in particular
    when the destination list is empty, StorePodsInteraction still sends
    an UPDATE for the source: its entity holds the identity of the source
    and no edge.  The counts are not read, so the call cannot panic
    whatever their number, and the error returned is the one of the
    UPDATE. *)
Theorem StorePodsInteraction_no_destination
    (sourcePodXID : string) (destinationPodsXIDs : list string)
    (counts : list float64) (w : W) :
  dgraph_GetUID sourcePodXID IsPod w ≠ "" →
  (∀ xid, xid ∈ destinationPodsXIDs → dgraph_GetUID xid IsPod w = "") →
  ∃ r w' tr,
    let source :=
      Pod.zero <| Pod.set_ID :=
        dgraph.mkID (dgraph_GetUID sourcePodXID IsPod w) sourcePodXID |> in
    StorePodsInteraction sourcePodXID destinationPodsXIDs counts w =
      Some (err_of r, w', tr) ∧
    (r, w') = dgraph_MutateNode source dgraph.UPDATE w ∧
    mutations tr = [(source, dgraph.UPDATE)] ∧
    lookups tr = sourcePodXID :: destinationPodsXIDs.
Proof.
  intros Hsrc Hnone.
  assert (is_empty (dgraph_GetUID sourcePodXID IsPod w) = false) as Hfound.
  { unfold is_empty. by apply String.eqb_neq. }
  rewrite (StorePodsInteraction_resolved sourcePodXID destinationPodsXIDs
             counts w Hfound).
  destruct (edges_unresolved w destinationPodsXIDs counts Hnone)
    as [-> ->].
  cbv zeta.
  change (interactionPod ?u ?x []) with (Pod.zero <| Pod.set_ID := dgraph.mkID u x |>).
  destruct (dgraph_MutateNode _ dgraph.UPDATE w) as [r w'] eqn:Hmut.
  exists r, w'. eexists.
  split; [reflexivity |]. split; [done |].
  cbn [mutations lookups].
  rewrite mutations_app, lookups_app, mutations_destination_lookups,
    lookups_destination_lookups.
  simpl. by rewrite app_nil_r.
Qed.

Lemma destination_lookups_app (w : W) d1 d2 :
  destination_lookups w (d1 ++ d2) =
  destination_lookups w d1 ++ destination_lookups w d2.
Proof.
  induction d1 as [| xid d1 IH]; [done |].
  simpl. by rewrite IH, <- app_assoc.
Qed.

Lemma counts_cover_app (w : W) d1 d2 (c1 c2 : list float64) :
  length d1 = length c1 →
  counts_cover w (d1 ++ d2) (c1 ++ c2) = counts_cover w d2 c2.
Proof.
  revert c1.
  induction d1 as [| xid d1 IH]; intros [| count c1] Hlen; try done.
  simpl. apply IH. by injection Hlen.
Qed.

(** X11: destinations can be looked up in batches.  For two lists of
    destinations with their counts, the first with as many counts as
    destinations, retrievePodsWithCountAsEdgeWeightFromPodsXIDs on the two
    lists joined returns the pods of the first list followed by the pods
    of the second, and makes the calls of the first followed by the calls
    of the second; it panics exactly when it panics on the second. *)
Theorem retrievePodsWithCount_app
    (d1 d2 : list string) (c1 c2 : list float64) (w : W) :
  length d1 = length c1 →
  retrievePodsWithCountAsEdgeWeightFromPodsXIDs (d1 ++ d2) (c1 ++ c2) w =
  match retrievePodsWithCountAsEdgeWeightFromPodsXIDs d1 c1 w,
        retrievePodsWithCountAsEdgeWeightFromPodsXIDs d2 c2 w with
  | Some (pods1, _, t1), Some (pods2, _, t2) =>
      Some (pods1 ++ pods2, w, t1 ++ t2)
  | _, _ => None
  end.
Proof.
  intros Hlen.
  unfold retrievePodsWithCountAsEdgeWeightFromPodsXIDs.
  rewrite !retrievePodsWithCount_loop_spec, !drop_0.
  rewrite (counts_cover_app w d1 d2 c1 c2 Hlen).
  rewrite (counts_cover_same_length w d1 c1 Hlen).
  destruct (counts_cover w d2 c2); [| done].
  simpl. unfold edges.
  by rewrite zip_with_app, omap_app, destination_lookups_app.
Qed.

End InteractionProperties.

(** ** Owners and volumes *)

Lemma owner_kind_is_owner kind k :
  owner_kind kind = Some k → is_owner_kind k = true.
Proof.
  unfold owner_kind. repeat case_match; intros Hk; by inversion Hk.
Qed.

Lemma owner_request_kinds namespace owners :
  (omap (owner_request namespace) owners).*1 =
  omap (λ owner, owner_kind (api_v1.Kind owner)) owners.
Proof.
  induction owners as [| owner owners IH]; [done |].
  simpl. unfold owner_request at 1.
  destruct (owner_kind (api_v1.Kind owner)); simpl; [f_equal |]; exact IH.
Qed.

Lemma elem_of_requested k xid uid tr :
  EvCreateOrGet k xid uid ∈ tr → (k, xid) ∈ requested tr.
Proof.
  induction tr as [| e tr IH]; [by intros ?%elem_of_nil |].
  intros [<- | Hin]%elem_of_cons.
  - simpl. apply elem_of_cons. auto.
  - destruct e; simpl; auto. apply elem_of_cons. auto.
Qed.

Lemma resolved_none k tr :
  (∀ xid uid, EvCreateOrGet k xid uid ∈ tr → uid = "") →
  resolved k tr = [].
Proof.
  induction tr as [| e tr IH]; [done |].
  intros Hnone.
  assert (resolved k tr = []) as Hrest.
  { apply IH. intros xid uid Hin. apply (Hnone xid), elem_of_cons. auto. }
  destruct e; simpl; auto.
  case_bool_decide as Hk; simpl; [subst | done].
  rewrite (Hnone xid uid) by (apply elem_of_cons; auto). done.
Qed.

Lemma resolved_unique k xid uid tr :
  NoDup (requested tr).*1 →
  EvCreateOrGet k xid uid ∈ tr → uid ≠ "" →
  resolved k tr = [dgraph.mkID uid xid].
Proof.
  intros Hdup Hin Hfound.
  induction tr as [| e tr IH]; [by apply elem_of_nil in Hin |].
  apply elem_of_cons in Hin as [<- | Hin].
  - simpl in *. apply NoDup_cons in Hdup as [Hfresh _].
    rewrite bool_decide_eq_true_2 by done.
    apply String.eqb_neq in Hfound. unfold is_empty. rewrite Hfound. simpl.
    f_equal. apply resolved_none. intros xid' uid' Hin'.
    exfalso. apply Hfresh.
    apply (list_elem_of_fmap_2 fst _ (k, xid')).
    by apply (elem_of_requested k xid' uid').
  - destruct e; simpl in *; auto.
    apply NoDup_cons in Hdup as [Hfresh Hdup].
    rewrite bool_decide_eq_false_2; [simpl; auto |].
    intros ->. apply Hfresh.
    apply (list_elem_of_fmap_2 fst _ (k, xid)).
    by apply (elem_of_requested k xid uid).
Qed.

Lemma resolved_bound k tr :
  (length (resolved k tr) ≤ length (requested tr))%nat.
Proof.
  induction tr as [| e tr IH]; [done |].
  destruct e; simpl; auto.
  destruct (bool_decide _ && _); simpl; lia.
Qed.

Lemma capacities_bound tr :
  (length (capacities tr) ≤ length (pvc_lookups tr))%nat.
Proof.
  induction tr as [| e tr IH]; [done |].
  destruct e as [| | | | ? []| | | |]; simpl; lia.
Qed.

Lemma elem_of_resolved k id tr :
  id ∈ resolved k tr →
  dgraph.UID id ≠ "" ∧ (k, dgraph.Xid id) ∈ requested tr.
Proof.
  induction tr as [| e tr IH]; [by intros ?%elem_of_nil |].
  destruct e; simpl; auto.
  case_bool_decide as Hk; simpl.
  - destruct (is_empty uid) eqn:Hempty; simpl.
    + intros Hin. split; [by apply IH |].
      apply elem_of_cons. right. by apply IH.
    + intros [-> | Hin]%elem_of_cons.
      * subst. split; [by apply String.eqb_neq | apply elem_of_cons; auto].
      * split; [by apply IH |]. apply elem_of_cons. right. by apply IH.
  - intros Hin. split; [by apply IH |].
    apply elem_of_cons. right. by apply IH.
Qed.

Lemma claims_bound namespace vols :
  (length (claims namespace vols) ≤ length vols)%nat.
Proof.
  induction vols as [| [[claim |]] vols IH]; [done | |].
  - apply le_n_S, IH.
  - apply Nat.le_le_succ_r, IH.
Qed.

Lemma logs_app t1 t2 : logs (t1 ++ t2) = logs t1 ++ logs t2.
Proof.
  induction t1 as [| e t1 IH]; [done |].
  destruct e; simpl; by rewrite ?IH.
Qed.

Lemma append_assoc (s1 s2 s3 : string) :
  (s1 +:+ s2) +:+ s3 = s1 +:+ (s2 +:+ s3).
Proof.
  induction s1 as [| c s1 IH]; [done |].
  change (String c ((s1 +:+ s2) +:+ s3) = String c (s1 +:+ (s2 +:+ s3))).
  by rewrite IH.
Qed.

Lemma count_char_app c (s1 s2 : string) :
  count_char c (s1 +:+ s2) = (count_char c s1 + count_char c s2)%nat.
Proof.
  induction s1 as [| c' s1 IH]; [done |].
  change (String c' s1 +:+ s2) with (String c' (s1 +:+ s2)).
  cbn [count_char]. rewrite IH. lia.
Qed.

Lemma truthy_str_app (s1 s2 : string) :
  s1 ≠ "" → js.truthy (js.str (s1 +:+ s2)) = true.
Proof. by destruct s1. Qed.

Section OwnerVolumeProperties.

Context {W : Type} `{!GraphStore W, !Collaborators W}.

Lemma logs_owner_events namespace owners tr :
  Forall2 (is_owner_event namespace) owners tr →
  length tr = length owners ∧
  logs tr =
    (λ owner, (Error, "Unknown owner type " +:+ api_v1.Kind owner
                      +:+ " for pod.")) <$>
      filter (λ owner, owner_kind (api_v1.Kind owner) = None) owners.
Proof.
  induction 1 as [| owner e owners tr He _ [IHlen IHlogs]]; [done |].
  split; [simpl; by rewrite IHlen |].
  unfold is_owner_event in He.
  destruct (owner_kind (api_v1.Kind owner)) as [k |] eqn:Hk.
  - destruct He as [uid ->]. simpl.
    rewrite filter_cons_False by (rewrite Hk; discriminate). exact IHlogs.
  - subst e. simpl. rewrite filter_cons_True by done.
    by rewrite fmap_cons, IHlogs.
Qed.

(** X12: setPodOwners never panics and leaves exactly one event per owner
    reference, in the order of the references: a create-or-get call of the
    kind of the reference with the external id namespace:name when the kind
    is Deployment, ReplicaSet, StatefulSet, Job or DaemonSet, and the error
    line "Unknown owner type <kind> for pod." for any other kind.  It makes
    no lookup, no mutation, no volume read, no container synchronisation,
    no label call and no cascade. *)
Theorem setPodOwners_one_event_per_owner
    (pod : Pod.t) (k8sPod : api_v1.Pod) (w : W) :
  ∃ pod' w' tr,
    setPodOwners pod k8sPod w = Some (pod', w', tr) ∧
    Forall2 (is_owner_event (api_v1.Namespace k8sPod))
      (api_v1.OwnerReferences k8sPod) tr ∧
    length tr = length (api_v1.OwnerReferences k8sPod) ∧
    logs tr =
      (λ owner, (Error, "Unknown owner type " +:+ api_v1.Kind owner
                        +:+ " for pod.")) <$>
        filter (λ owner, owner_kind (api_v1.Kind owner) = None)
          (api_v1.OwnerReferences k8sPod) ∧
    lookups tr = [] ∧ mutations tr = [] ∧ pvc_lookups tr = [] ∧
    syncs tr = [] ∧ label_requests tr = [] ∧ cascades tr = [].
Proof.
  apply wp_run. unfold setPodOwners.
  pose proof (setPodOwners_loop_events (api_v1.Namespace k8sPod) pod
                (api_v1.OwnerReferences k8sPod) w) as Hev.
  pose proof (setPodOwners_loop_calls (api_v1.Namespace k8sPod) pod
                (api_v1.OwnerReferences k8sPod) w) as Hcalls.
  pose proof (setPodOwners_loop_spec _ Frame_any (api_v1.Namespace k8sPod)
                pod (api_v1.OwnerReferences k8sPod) w) as Hspec.
  unfold wp in *.
  destruct (setPodOwners_loop _ _ _ w) as [[[pod' w'] tr] |]; [| done].
  destruct Hspec as (_ & _ & _ & _ & Hpvc & _ & Hm & _).
  destruct (create_phase_calls_only tr Hcalls) as (Hl & Hs & Hlab & Hc).
  destruct (logs_owner_events _ _ _ Hev) as [Hlen Hlogs].
  by repeat split.
Qed.

(** X13: when none of the owner references has a kind that is handled,
    setPodOwners returns the pod as it was given and leaves the world as it
    was; all it does is write one error line per reference. *)
Theorem setPodOwners_unknown_kinds
    (pod : Pod.t) (k8sPod : api_v1.Pod) (w : W) :
  Forall (λ owner, owner_kind (api_v1.Kind owner) = None)
    (api_v1.OwnerReferences k8sPod) →
  setPodOwners pod k8sPod w =
  Some (pod, w,
        (λ owner, EvLog Error ("Unknown owner type " +:+ api_v1.Kind owner
                               +:+ " for pod.")) <$>
          api_v1.OwnerReferences k8sPod).
Proof.
  unfold setPodOwners.
  induction 1 as [| owner owners Hk _ IH]; [done |].
  cbn [setPodOwners_loop]. unfold bind.
  assert (setPodOwners_body (api_v1.Namespace k8sPod) pod owner w =
          Some (pod, w,
                [EvLog Error ("Unknown owner type " +:+ api_v1.Kind owner
                              +:+ " for pod.")])) as ->.
  { unfold owner_kind in Hk. unfold setPodOwners_body.
    repeat case_match; try discriminate. done. }
  by rewrite IH.
Qed.

(** X14: when no two owner references have the same handled kind, every
    reference that resolves ends up in the pod: for each create-or-get call
    that returned an id, the owner field of the kind of the call holds that
    id with the external id of the call.  An owner field for whose kind no
    call returned an id is as it was before. *)
Theorem setPodOwners_distinct_kinds
    (pod : Pod.t) (k8sPod : api_v1.Pod) (w : W) :
  NoDup (omap (λ owner, owner_kind (api_v1.Kind owner))
           (api_v1.OwnerReferences k8sPod)) →
  ∃ pod' w' tr,
    setPodOwners pod k8sPod w = Some (pod', w', tr) ∧
    (∀ k xid uid,
       EvCreateOrGet k xid uid ∈ tr → uid ≠ "" →
       owner_field k pod' = Some (dgraph.mkID uid xid)) ∧
    (∀ k, is_owner_kind k = true →
          (∀ xid uid, EvCreateOrGet k xid uid ∈ tr → uid = "") →
          owner_field k pod' = owner_field k pod).
Proof.
  intros Hdup. apply wp_run. unfold setPodOwners.
  eapply wp_mono; [apply (setPodOwners_loop_spec _ Frame_any) |].
  intros pod' w' tr (_ & Hreq & Hown & _).
  rewrite <- (owner_request_kinds (api_v1.Namespace k8sPod)), <- Hreq
    in Hdup.
  split.
  - intros k xid uid Hin Hfound.
    assert (is_owner_kind k = true) as Hk.
    { pose proof (elem_of_requested k xid uid tr Hin) as Hr.
      rewrite Hreq in Hr. apply list_elem_of_omap in Hr as (owner & _ & Hr).
      unfold owner_request in Hr.
      destruct (owner_kind (api_v1.Kind owner)) as [k' |] eqn:Hkind;
        [| discriminate].
      injection Hr as <- _. by apply (owner_kind_is_owner _ _ Hkind). }
    rewrite (Hown k Hk). unfold attached.
    by rewrite (resolved_unique k xid uid tr Hdup Hin Hfound).
  - intros k Hk Hnone. rewrite (Hown k Hk). unfold attached.
    by rewrite (resolved_none k tr Hnone).
Qed.

(** X15: a pod none of whose volumes is a volume claim has no volume
    relation and the storage request 0.0, and getPodVolumes calls nothing
    to find that out: the world is untouched and the trace is empty. *)
Theorem getPodVolumes_no_claim (k8sPod : api_v1.Pod) (w : W) :
  Forall (λ vol, api_v1.PersistentVolumeClaim vol = None)
    (api_v1.Volumes (api_v1.Spec k8sPod)) →
  getPodVolumes k8sPod w = Some (([], 0%float), w, []).
Proof.
  unfold getPodVolumes.
  induction 1 as [| vol vols Hvol _ IH]; [done |].
  cbn [getPodVolumes_loop]. by rewrite Hvol.
Qed.

(** X16: getPodVolumes never panics.  It returns at most one relation per
    volume claim of the pod, hence at most one per volume; each relation
    holds a non-empty internal id and the external id of one of the claims,
    and its own capacity is 0.0 even when the capacity of the claim was
    read.  It reads back exactly the claims it returns, one read each, so
    the capacities summed are at most as many as the relations.  It makes
    no lookup, no mutation, no container synchronisation, no label call and
    no cascade. *)
Theorem getPodVolumes_bounds (k8sPod : api_v1.Pod) (w : W) :
  ∃ pvcs storage w' tr,
    let xids := claims (api_v1.Namespace k8sPod)
                  (api_v1.Volumes (api_v1.Spec k8sPod)) in
    getPodVolumes k8sPod w = Some ((pvcs, storage), w', tr) ∧
    (length pvcs ≤ length xids)%nat ∧
    (length xids ≤ length (api_v1.Volumes (api_v1.Spec k8sPod)))%nat ∧
    length (pvc_lookups tr) = length pvcs ∧
    (length (capacities tr) ≤ length pvcs)%nat ∧
    Forall (λ pvc, StorageCapacity pvc = 0%float ∧
                   dgraph.UID (PersistentVolumeClaim_ID pvc) ≠ "" ∧
                   dgraph.Xid (PersistentVolumeClaim_ID pvc) ∈ xids) pvcs ∧
    lookups tr = [] ∧ mutations tr = [] ∧ syncs tr = [] ∧
    label_requests tr = [] ∧ cascades tr = [].
Proof.
  pose proof (getPodVolumes_spec _ Frame_any k8sPod w) as Hspec.
  pose proof (getPodVolumes_loop_calls (api_v1.Namespace k8sPod)
                (api_v1.Volumes (api_v1.Spec k8sPod)) [] 0%float w) as Hcalls.
  unfold getPodVolumes, wp in *.
  destruct (getPodVolumes_loop _ _ _ _ w) as [[[[pvcs storage] w'] tr] |];
    [| done].
  destruct Hspec as (_ & Hpvcs & _ & Hreq & Hlook & Hm & _).
  destruct (create_phase_calls_only tr Hcalls) as (Hl & Hs & Hlab & Hc).
  simpl in Hpvcs. subst pvcs.
  exists (claim_of <$> resolved KPersistentVolumeClaim tr), storage, w', tr.
  cbv zeta. split; [done |].
  pose proof (resolved_bound KPersistentVolumeClaim tr) as Hbound.
  pose proof (capacities_bound tr) as Hcap.
  rewrite Hreq in Hbound. rewrite Hlook in Hcap |- *.
  rewrite !length_fmap in *.
  split; [done |]. split; [apply claims_bound |].
  split; [done |]. split; [done |]. split; [| done].
  apply Forall_fmap, Forall_forall. intros id Hid.
  destruct (elem_of_resolved _ _ _ Hid) as [Hfound Hr].
  split; [done |]. split; [done |].
  rewrite Hreq in Hr. apply list_elem_of_fmap in Hr as (xid & Heq & Hin).
  simpl. by injection Heq as <-.
Qed.

End OwnerVolumeProperties.

(** ** The capacity service of the UI *)

(** X17: a name takes precedence over the view.  When a name is given, the
    request is the same whatever the view argument is, and its URL is the
    endpoint, then a slash and the type if a type is given, then "?name="
    and the name. *)
Theorem getCapacityData_name_overrides_view (view type name : js.value) :
  js.truthy name = true →
  CapacityGraphService.getCapacityData view type name =
    CapacityGraphService.getCapacityData js.undefined type name ∧
  CapacityGraphService.url
    (CapacityGraphService.getCapacityData view type name) =
    ("http://localhost:3030/metrics"
       +:+ (if js.truthy type then "/" +:+ js.to_string type else ""))
    +:+ "?name=" +:+ js.to_string name.
Proof.
  intros Hname. unfold CapacityGraphService.getCapacityData.
  rewrite Hname, andb_false_r. simpl.
  destruct (js.truthy type); simpl; [| done].
  split; [done |]. by rewrite append_assoc.
Qed.

(** X18: getCapacityData adds at most one query separator.  The number of
    question marks in the URL is one if a view or a name is given and zero
    otherwise, plus those that the type and the name themselves contain:
    the view and the name parameter never appear together. *)
Theorem getCapacityData_one_query (view type name : js.value) :
  count_char chars.question_mark
    (CapacityGraphService.url
       (CapacityGraphService.getCapacityData view type name)) =
  ((if js.truthy view || js.truthy name then 1 else 0)
   + (if js.truthy type
      then count_char chars.question_mark (js.to_string type) else 0)
   + (if js.truthy name
      then count_char chars.question_mark (js.to_string name) else 0))%nat.
Proof.
  unfold CapacityGraphService.getCapacityData.
  destruct (js.truthy view), (js.truthy type), (js.truthy name);
    cbn [andb orb negb CapacityGraphService.url];
    rewrite ?count_char_app; simpl; lia.
Qed.

(** X19: the parameters are put into the URL as they are, without any
    escaping, so a request for a type and a name cannot be told from a
    request for the type alone whose text ends in "?name=" and that
    name. *)
Theorem getCapacityData_no_escaping (view : js.value) (type name : string) :
  type ≠ "" → name ≠ "" →
  CapacityGraphService.getCapacityData view (js.str type) (js.str name) =
  CapacityGraphService.getCapacityData js.undefined
    (js.str (type +:+ "?name=" +:+ name)) js.undefined.
Proof.
  intros Htype Hname. unfold CapacityGraphService.getCapacityData.
  rewrite (truthy_str_app type _ Htype).
  assert (js.truthy (js.str type) = true) as -> by by destruct type.
  assert (js.truthy (js.str name) = true) as -> by by destruct name.
  rewrite andb_false_r. cbn [js.truthy js.to_string andb].
  f_equal. by rewrite !append_assoc.
Qed.

(** X20: every request of getCapacityData goes to the metrics endpoint on
    localhost port 3030 and asks for the body of the response as JSON; the
    URL is the bare endpoint exactly when no type, no view and no name is
    given. *)
Theorem getCapacityData_endpoint (view type name : js.value) :
  String.prefix "http://localhost:3030/metrics"
    (CapacityGraphService.url
       (CapacityGraphService.getCapacityData view type name)) = true ∧
  CapacityGraphService.observe
    (CapacityGraphService.getCapacityData view type name) = "body" ∧
  CapacityGraphService.responseType
    (CapacityGraphService.getCapacityData view type name) = "json" ∧
  (CapacityGraphService.url
     (CapacityGraphService.getCapacityData view type name) =
     "http://localhost:3030/metrics" ↔
   js.truthy type = false ∧ js.truthy view = false ∧
   js.truthy name = false).
Proof.
  unfold CapacityGraphService.getCapacityData.
  destruct (js.truthy view), (js.truthy type), (js.truthy name);
    cbn [andb negb CapacityGraphService.url CapacityGraphService.observe
         CapacityGraphService.responseType];
    (split; [by vm_compute |]); (split; [done |]); (split; [done |]);
    (split; [| by intros (? & ? & ?)]);
    intros Heq; vm_compute in Heq; try discriminate Heq; done.
Qed.

(** ** The terminate phase *)

Section TerminatePhase.

Context {W : Type} `{!GraphStore W, !Collaborators W}.

(** X21: for a pod that the lookup finds and that has a deletion marker,
    StorePod makes three calls and no other: the lookup, the termination
    cascade, with no containers and the deletion time, and then one
    UPDATE.  The entity of that UPDATE holds the identity and the end time
    formatted from the deletion time, and nothing else; the namespace is
    not resolved.  The UPDATE acts on the world that the cascade left, and
    its error is the error returned. *)
Theorem StorePod_terminate_phase
    (k8sPod : api_v1.Pod) (t : time.Time) (w : W) :
  dgraph_GetUID (pod_xid k8sPod) IsPod w ≠ "" →
  api_v1.DeletionTimestamp k8sPod = Some t →
  time.IsZero t = false →
  let uid := dgraph_GetUID (pod_xid k8sPod) IsPod w in
  let pod :=
    Pod.zero <| Pod.set_ID := dgraph.mkID uid (pod_xid k8sPod) |>
             <| Pod.set_EndTime := Format_RFC3339 t |> in
  let r :=
    dgraph_MutateNode pod dgraph.UPDATE
      (collab_deleteContainersInTerminatedPod [] t w) in
  StorePod k8sPod w =
    Some (err_of r.1, r.2,
          [ EvGetUID (pod_xid k8sPod) IsPod uid;
            EvDeleteContainers [] t;
            EvMutateNode pod dgraph.UPDATE r.1 ]).
Proof.
  intros Hfound Ht Hz.
  assert (is_empty (dgraph_GetUID (pod_xid k8sPod) IsPod w) = false)
    as Hlookup by (unfold is_empty; by apply String.eqb_neq).
  cbv zeta. rewrite (StorePod_resolved k8sPod w Hlookup).
  by rewrite (StorePod_mutate_terminate k8sPod _ _ t w Ht Hz).
Qed.

End TerminatePhase.

(** ** The further properties on the small cluster *)

Lemma StorePod_uses_first_blank_node_witness :
  dgraph_GetUID (pod_xid Scenario.pod1) IsPod
    (Scenario.empty_world Scenario.quiet) = "" ∧
  ∃ e w' tr created rc,
    StorePod Scenario.pod1 (Scenario.empty_world Scenario.quiet) =
      Some (e, w', tr) ∧
    EvMutateNode created dgraph.CREATE rc ∈ tr.
Proof.
  assert (dgraph_GetUID (pod_xid Scenario.pod1) IsPod
            (Scenario.empty_world Scenario.quiet) = "") as Habsent
    by (vm_compute; reflexivity).
  split; [exact Habsent |].
  destruct (StorePod_uses_first_blank_node Scenario.pod1
              (Scenario.empty_world Scenario.quiet) Habsent)
    as (e & w' & tr & created & rc & Hrun & Hin & _).
  exists e, w', tr, created, rc. split; [exact Hrun | exact Hin].
Defined.

Lemma StorePod_update_phase_witness :
  dgraph_GetUID (pod_xid Scenario.pod1) IsPod Scenario.world1 ≠ "" ∧
  api_v1.IsZero (api_v1.DeletionTimestamp Scenario.pod1) = true ∧
  ∃ e w' tr,
    StorePod Scenario.pod1 Scenario.world1 = Some (e, w', tr) ∧
    length tr = 6%nat.
Proof.
  assert (dgraph_GetUID (pod_xid Scenario.pod1) IsPod Scenario.world1 ≠ "")
    as Hfound by (vm_compute; discriminate).
  assert (api_v1.IsZero (api_v1.DeletionTimestamp Scenario.pod1) = true)
    as Hz by reflexivity.
  split; [exact Hfound |]. split; [exact Hz |].
  destruct (StorePod_update_phase Scenario.pod1 Scenario.world1 Hfound Hz)
    as (namespaceUID & containers & metrics & trL & r & w1 & w' & Hrun & _
        & _ & Hlen & _).
  eexists _, _, _. split; [exact Hrun |].
  cbn [length]. rewrite !length_app, Hlen. reflexivity.
Defined.

Lemma retrievePods_same_identities_witness :
  counts_cover Scenario.world12 ["ns:p2"; "ns:p3"] [5%float; 10%float] =
    true ∧
  ∃ weighted plain t1 t2,
    retrievePodsWithCountAsEdgeWeightFromPodsXIDs ["ns:p2"; "ns:p3"]
      [5%float; 10%float] Scenario.world12 =
      Some (weighted, Scenario.world12, t1) ∧
    retrievePodsFromPodsXIDs ["ns:p2"; "ns:p3"] Scenario.world12 =
      Some (plain, Scenario.world12, t2) ∧
    plain = Pod.set_Count 0%float <$> weighted.
Proof.
  assert (counts_cover Scenario.world12 ["ns:p2"; "ns:p3"]
            [5%float; 10%float] = true) as Hcover
    by (vm_compute; reflexivity).
  split; [exact Hcover |].
  destruct (retrievePods_same_identities ["ns:p2"; "ns:p3"]
              [5%float; 10%float] Scenario.world12 Hcover)
    as (weighted & plain & t1 & t2 & Hw & Hp & Heq & _).
  exists weighted, plain, t1, t2.
  split; [exact Hw |]. split; [exact Hp | exact Heq].
Defined.

Lemma StorePodsInteraction_no_destination_witness :
  dgraph_GetUID "ns:p1" IsPod Scenario.world12 ≠ "" ∧
  (∀ xid, xid ∈ ["ns:p3"] → dgraph_GetUID xid IsPod Scenario.world12 = "") ∧
  ∃ (r : dgraph.Assigned + error) w' tr,
    StorePodsInteraction "ns:p1" ["ns:p3"] [] Scenario.world12 =
      Some (err_of r, w', tr) ∧
    lookups tr = ["ns:p1"; "ns:p3"].
Proof.
  assert (dgraph_GetUID "ns:p1" IsPod Scenario.world12 ≠ "") as Hsrc
    by (vm_compute; discriminate).
  assert (∀ xid, xid ∈ ["ns:p3"] →
                 dgraph_GetUID xid IsPod Scenario.world12 = "") as Hnone.
  { intros xid Hin. apply list_elem_of_singleton in Hin. subst xid.
    vm_compute. reflexivity. }
  split; [exact Hsrc |]. split; [exact Hnone |].
  destruct (StorePodsInteraction_no_destination "ns:p1" ["ns:p3"] []
              Scenario.world12 Hsrc Hnone)
    as (r & w' & tr & Hrun & _ & _ & Hl).
  exists r, w', tr. split; [exact Hrun | exact Hl].
Defined.

Lemma retrievePodsWithCount_app_witness :
  length ["ns:p2"] = length [5%float] ∧
  retrievePodsWithCountAsEdgeWeightFromPodsXIDs (["ns:p2"] ++ ["ns:p1"])
    ([5%float] ++ [10%float]) Scenario.world12 =
  match retrievePodsWithCountAsEdgeWeightFromPodsXIDs ["ns:p2"] [5%float]
          Scenario.world12,
        retrievePodsWithCountAsEdgeWeightFromPodsXIDs ["ns:p1"] [10%float]
          Scenario.world12 with
  | Some (pods1, _, t1), Some (pods2, _, t2) =>
      Some (pods1 ++ pods2, Scenario.world12, t1 ++ t2)
  | _, _ => None
  end.
Proof.
  assert (length ["ns:p2"] = length [5%float]) as Hlen by reflexivity.
  split; [exact Hlen |].
  exact (retrievePodsWithCount_app ["ns:p2"] ["ns:p1"] [5%float] [10%float]
           Scenario.world12 Hlen).
Defined.

Lemma setPodOwners_unknown_kinds_witness :
  Forall (λ owner, owner_kind (api_v1.Kind owner) = None)
    (api_v1.OwnerReferences bare_pod) ∧
  setPodOwners Pod.zero bare_pod (Scenario.empty_world Scenario.quiet) =
  Some (Pod.zero, Scenario.empty_world Scenario.quiet,
        [ EvLog Error "Unknown owner type Widget for pod.";
          EvLog Error "Unknown owner type CronJob for pod." ]).
Proof.
  assert (Forall (λ owner, owner_kind (api_v1.Kind owner) = None)
            (api_v1.OwnerReferences bare_pod)) as Hkinds.
  { repeat constructor. }
  split; [exact Hkinds |].
  exact (setPodOwners_unknown_kinds Pod.zero bare_pod
           (Scenario.empty_world Scenario.quiet) Hkinds).
Defined.

Lemma setPodOwners_distinct_kinds_witness :
  NoDup (omap (λ owner, owner_kind (api_v1.Kind owner))
           (api_v1.OwnerReferences Scenario.pod1)) ∧
  ∃ pod' w' tr,
    setPodOwners Pod.zero Scenario.pod1
      (Scenario.empty_world Scenario.quiet) = Some (pod', w', tr) ∧
    ∀ k xid uid,
      EvCreateOrGet k xid uid ∈ tr → uid ≠ "" →
      owner_field k pod' = Some (dgraph.mkID uid xid).
Proof.
  assert (NoDup (omap (λ owner, owner_kind (api_v1.Kind owner))
                   (api_v1.OwnerReferences Scenario.pod1))) as Hdup.
  { vm_compute. apply NoDup_singleton. }
  split; [exact Hdup |].
  destruct (setPodOwners_distinct_kinds Pod.zero Scenario.pod1
              (Scenario.empty_world Scenario.quiet) Hdup)
    as (pod' & w' & tr & Hrun & Hset & _).
  exists pod', w', tr. split; [exact Hrun | exact Hset].
Defined.

Lemma getPodVolumes_no_claim_witness :
  Forall (λ vol, api_v1.PersistentVolumeClaim vol = None)
    (api_v1.Volumes (api_v1.Spec bare_pod)) ∧
  getPodVolumes bare_pod (Scenario.empty_world Scenario.quiet) =
  Some (([], 0%float), Scenario.empty_world Scenario.quiet, []).
Proof.
  assert (Forall (λ vol, api_v1.PersistentVolumeClaim vol = None)
            (api_v1.Volumes (api_v1.Spec bare_pod))) as Hvols.
  { repeat constructor. }
  split; [exact Hvols |].
  exact (getPodVolumes_no_claim bare_pod
           (Scenario.empty_world Scenario.quiet) Hvols).
Defined.

Lemma getCapacityData_name_overrides_view_witness :
  js.truthy (js.str "db") = true ∧
  CapacityGraphService.url
    (CapacityGraphService.getCapacityData (js.boolean true) (js.str "pod")
       (js.str "db")) =
  "http://localhost:3030/metrics/pod?name=db".
Proof.
  assert (js.truthy (js.str "db") = true) as Hname by reflexivity.
  split; [exact Hname |].
  destruct (getCapacityData_name_overrides_view (js.boolean true)
              (js.str "pod") (js.str "db") Hname) as [_ Hurl].
  exact Hurl.
Defined.

Lemma getCapacityData_no_escaping_witness :
  "pod" ≠ "" ∧ "db" ≠ "" ∧
  CapacityGraphService.getCapacityData js.undefined (js.str "pod")
    (js.str "db") =
  CapacityGraphService.getCapacityData js.undefined
    (js.str ("pod" +:+ "?name=" +:+ "db")) js.undefined.
Proof.
  assert ("pod" ≠ "") as Htype by discriminate.
  assert ("db" ≠ "") as Hname by discriminate.
  split; [exact Htype |]. split; [exact Hname |].
  exact (getCapacityData_no_escaping js.undefined "pod" "db" Htype Hname).
Defined.

Lemma StorePod_terminate_phase_witness :
  dgraph_GetUID (pod_xid Scenario.pod1_deleted) IsPod Scenario.world1 ≠ "" ∧
  api_v1.DeletionTimestamp Scenario.pod1_deleted = Some Scenario.t1 ∧
  time.IsZero Scenario.t1 = false ∧
  cascades (trace_of (StorePod Scenario.pod1_deleted Scenario.world1)) =
    [ [] ].
Proof.
  assert (dgraph_GetUID (pod_xid Scenario.pod1_deleted) IsPod
            Scenario.world1 ≠ "") as Hfound by (vm_compute; discriminate).
  assert (api_v1.DeletionTimestamp Scenario.pod1_deleted = Some Scenario.t1)
    as Ht by reflexivity.
  assert (time.IsZero Scenario.t1 = false) as Hz by reflexivity.
  split; [exact Hfound |]. split; [exact Ht |]. split; [exact Hz |].
  rewrite (StorePod_terminate_phase Scenario.pod1_deleted Scenario.t1
             Scenario.world1 Hfound Ht Hz).
  reflexivity.
Defined.
